(** * Mkrul: the rule compiler of the Tantal web filter

    A shallow embedding of [mkrul.go]: the tokenizer ([scanGroups],
    [scanDelim], [scanWord]), the condition parser ([parseGroup]), the rule
    model builder ([makeSentinels]) and the binary encoder ([writeSentinel],
    [offsetTable], [writeSentinels]), with the properties the specification
    states about them.

    Go strings reach the compiler from [encoding/json], which only yields
    valid UTF-8.  A string is therefore modelled as the sequence of its runes
    (code points); its length [len] and the bytes written for it are those of
    its UTF-8 encoding.  Integers of a fixed width are [Z] with the
    wrap-around written out. *)

From Stdlib Require Import String Ascii ZArith NArith Nnat List Bool Lia.
Import ListNotations.
Local Open Scope Z_scope.
Local Open Scope list_scope.

(** ** Runes, strings and bytes *)

Definition rune := Z.
Definition byte := Z.
Definition gostring := list rune.

(** A string constant of the source, as runes. *)
Definition lit (s : string) : gostring :=
  map (fun a => Z.of_N (N_of_ascii a)) (list_ascii_of_string s).

Fixpoint eqs (a b : gostring) : bool :=
  match a, b with
  | [], [] => true
  | x :: a', y :: b' => (x =? y) && eqs a' b'
  | _, _ => false
  end.

Definition COLON : rune := 58.
Definition QUOTE : rune := 39.
Definition SLASH : rune := 47.
Definition BACKSLASH : rune := 92.
Definition DOLLAR : rune := 36.
Definition BAR : rune := 124.

(** [unicode.IsSpace]: the Latin-1 cases, then the White_Space table. *)
Definition IsSpace (r : rune) : bool :=
  if (0 <=? r) && (r <=? 255) then
    (r =? 9) || (r =? 10) || (r =? 11) || (r =? 12) || (r =? 13) ||
    (r =? 32) || (r =? 133) || (r =? 160)
  else
    (r =? 5760) || ((8192 <=? r) && (r <=? 8202)) || (r =? 8232) ||
    (r =? 8233) || (r =? 8239) || (r =? 8287) || (r =? 12288).

(** [utf8.AppendRune]: the bytes of one rune; what is no code point is
    written as U+FFFD. *)
Definition RuneError : list byte := [239; 191; 189].

Definition EncodeRune (r : rune) : list byte :=
  if (0 <=? r) && (r <=? 127) then [r]
  else if (0 <=? r) && (r <=? 2047) then
    [Z.lor 192 (Z.shiftr r 6); Z.lor 128 (Z.land r 63)]
  else if (r <? 0) || (1114111 <? r) || ((55296 <=? r) && (r <=? 57343)) then
    RuneError
  else if r <=? 65535 then
    [Z.lor 224 (Z.shiftr r 12);
     Z.lor 128 (Z.land (Z.shiftr r 6) 63);
     Z.lor 128 (Z.land r 63)]
  else
    [Z.lor 240 (Z.shiftr r 18);
     Z.lor 128 (Z.land (Z.shiftr r 12) 63);
     Z.lor 128 (Z.land (Z.shiftr r 6) 63);
     Z.lor 128 (Z.land r 63)].

(** [[]byte(s)] and [len(s)]. *)
Definition bytes (s : gostring) : list byte := flat_map EncodeRune s.
Definition len {A : Type} (l : list A) : Z := Z.of_nat (length l).
Definition strlen (s : gostring) : Z := len (bytes s).

(** ** The [strings] functions the compiler calls *)

Definition HasPrefix1 (s : gostring) (c : rune) : bool :=
  match s with
  | r :: _ => r =? c
  | [] => false
  end.

Fixpoint TrimLeft (s : gostring) (cut : rune -> bool) : gostring :=
  match s with
  | r :: s' => if cut r then TrimLeft s' cut else s
  | [] => []
  end.

Definition TrimRight (s : gostring) (cut : rune -> bool) : gostring :=
  rev (TrimLeft (rev s) cut).

(** [strings.Trim(s, "'")] with a cutset of one rune. *)
Definition Trim (s : gostring) (c : rune) : gostring :=
  TrimRight (TrimLeft s (Z.eqb c)) (Z.eqb c).

Definition TrimSpace (s : gostring) : gostring :=
  TrimRight (TrimLeft s IsSpace) IsSpace.

(** [strings.Split(s, sep)] for a separator of one rune: the pieces between
    the separators, one piece more than there are separators. *)
Fixpoint Split_from (cur : gostring) (s : gostring) (sep : rune)
  : list gostring :=
  match s with
  | [] => [cur]
  | r :: s' =>
      if r =? sep then cur :: Split_from [] s' sep
      else Split_from (cur ++ [r]) s' sep
  end.

Definition Split (s : gostring) (sep : rune) : list gostring :=
  Split_from [] s sep.

(** ** Data model *)

Definition VERSION : Z := 4.

Definition CTX : Z := 1.
Definition KEY : Z := 2.
Definition VAL : Z := 3.
Definition DEPTH : Z := 4.

Definition NUMERIC : Z := 1.
Definition STRING : Z := 2.
Definition REGEXP : Z := 3.

Definition BLOCK : Z := 1.
Definition PASS : Z := 2.
Definition EQ : Z := 3.
Definition NEQ : Z := 4.

Definition AUTH_HEADER : Z := 11.
Definition HEADERS : Z := 4.
Definition URLENC : Z := 3.
Definition BASE64 : Z := 9.
Definition BASE64_URL : Z := 10.
Definition COOKIE : Z := 8.
Definition JSON : Z := 5.
Definition JSON_OBJ : Z := 6.
Definition JSON_ARRAY : Z := 7.
Definition PATH : Z := 2.
Definition HTTP : Z := 1.
Definition JWT : Z := 12.

Record Endpoint := mkEndpoint {
  ep_Method : gostring;
  ep_Path : gostring;
  ep_Rules : list gostring
}.

Record Stmt := mkStmt {
  Var : Z;
  Op : Z;
  Val : gostring;
  Regexp : gostring
}.

(** The zero value [Stmt{}]. *)
Definition Stmt0 : Stmt := mkStmt 0 0 [] [].

Record Sentinel := mkSentinel {
  Method : gostring;
  Path : list gostring;
  Rules : list (list (list Stmt))
}.

(** The errors the compiler returns, and those of the operating system. *)
Inductive error :=
| UnknownVariable (val : gostring)
| UnknownOperator (val : gostring)
| UnknownContext (val : gostring)
| EOF
| SyntaxError
| EACCES
| ENOSPC.

(** A Go result [(value, err)] is a pair whose second component is [None]
    for a nil error.  A call that may end the process in [log.Fatalln]
    either returns ([Done]) or does not ([Fatal]). *)
Inductive run (A : Type) :=
| Done (a : A)
| Fatal (msg : string).
Arguments Done {A} a.
Arguments Fatal {A} msg.

(** ** Tokenizer *)

Fixpoint scanWord (dst src : gostring) : gostring * gostring :=
  match src with
  | [] => (dst, [])
  | r :: src' =>
      if IsSpace r then (dst, src')
      else scanWord (dst ++ [r]) src'
  end.

(** [scanDelim]: [None] is the [log.Fatalln] at the end of the input. *)
Fixpoint scanDelim_loop (escape : bool) (dst src : gostring) (delim : rune)
  : option (gostring * gostring) :=
  match src with
  | [] => None
  | r :: src' =>
      if escape then scanDelim_loop false (dst ++ [r]) src' delim
      else if r =? BACKSLASH then scanDelim_loop true dst src' delim
      else if r =? delim then Some (dst ++ [r], src')
      else scanDelim_loop false (dst ++ [r]) src' delim
  end.

Definition scanDelim (dst src : gostring) (delim : rune)
  : option (gostring * gostring) :=
  scanDelim_loop false dst src delim.

(** The loop of [scanGroups].  The inner scanners hand back the rest of the
    buffer, so the loop runs on a step budget; [None] is an exhausted budget,
    which [scanGroups] never meets (see [scanGroups_returns]). *)
Fixpoint scanGroups_loop (fuel : nat) (buf : gostring)
  (result : list (list gostring)) (group : list gostring)
  : option (run (list (list gostring))) :=
  match fuel with
  | O => None
  | S fuel' =>
      match buf with
      | [] =>
          Some (Done (if len group =? 0 then result else result ++ [group]))
      | r :: buf' =>
          if IsSpace r then scanGroups_loop fuel' buf' result group
          else if r =? COLON then
            scanGroups_loop fuel' buf' (result ++ [group]) []
          else if r =? QUOTE then
            match scanDelim [r] buf' QUOTE with
            | None => Some (Fatal "invalid string")
            | Some (tok, buf'') =>
                scanGroups_loop fuel' buf'' result (group ++ [tok])
            end
          else if r =? SLASH then
            match scanDelim [r] buf' SLASH with
            | None => Some (Fatal "invalid string")
            | Some (tok, buf'') =>
                scanGroups_loop fuel' buf'' result (group ++ [tok])
            end
          else
            let '(tok, buf'') := scanWord [r] buf' in
            scanGroups_loop fuel' buf'' result (group ++ [tok])
      end
  end.

Definition scanGroups_from (buf : gostring)
  (result : list (list gostring)) (group : list gostring)
  : option (run (list (list gostring))) :=
  scanGroups_loop (S (length buf)) buf result group.

Definition scanGroups (text : gostring)
  : option (run (list (list gostring))) :=
  scanGroups_from text [] [].

(** ** Condition parser *)

Definition parseVar (val : gostring) : Z * option error :=
  if eqs val (lit "$ctx") then (CTX, None)
  else if eqs val (lit "$key") then (KEY, None)
  else if eqs val (lit "$val") then (VAL, None)
  else if eqs val (lit "$depth") then (DEPTH, None)
  else (0, Some (UnknownVariable val)).

Definition parseOp (val : gostring) : Z * option error :=
  if eqs val (lit "block") then (BLOCK, None)
  else if eqs val (lit "pass") then (PASS, None)
  else if eqs val (lit "==") then (EQ, None)
  else if eqs val (lit "!=") then (NEQ, None)
  else (0, Some (UnknownOperator val)).

(** The assignment a token makes to the statement under construction. *)
Definition parseGroup_token (curr : Stmt) (token : gostring)
  : Stmt * option error :=
  if HasPrefix1 token QUOTE then
    (mkStmt (Var curr) (Op curr) (Trim token QUOTE) (Regexp curr), None)
  else if HasPrefix1 token SLASH then
    (mkStmt (Var curr) (Op curr) (Val curr) token, None)
  else if HasPrefix1 token DOLLAR then
    let '(v, err) := parseVar token in
    (mkStmt v (Op curr) (Val curr) (Regexp curr), err)
  else
    let '(o, err) := parseOp token in
    (mkStmt (Var curr) o (Val curr) (Regexp curr), err).

(** The condition under which [parseGroup] appends [curr] and resets it. *)
Definition parseGroup_complete (curr : Stmt) : bool :=
  (negb (Var curr =? 0) && negb (Op curr =? 0) &&
   (negb (strlen (Val curr) =? 0) || negb (strlen (Regexp curr) =? 0)))
  || ((Op curr =? BLOCK) || (Op curr =? PASS)).

Fixpoint parseGroup_loop (tokens : list gostring) (result : list Stmt)
  (curr : Stmt) : list Stmt * option error :=
  match tokens with
  | [] => (result, None)
  | token :: tokens' =>
      match parseGroup_token curr token with
      | (_, Some err) => ([], Some err)
      | (curr', None) =>
          if parseGroup_complete curr'
          then parseGroup_loop tokens' (result ++ [curr']) Stmt0
          else parseGroup_loop tokens' result curr'
      end
  end.

Definition parseGroup (tokens : list gostring) : list Stmt * option error :=
  parseGroup_loop tokens [] Stmt0.

Fixpoint parseRule_loop (groups : list (list gostring))
  (result : list (list Stmt)) : list (list Stmt) * option error :=
  match groups with
  | [] => (result, None)
  | group :: groups' =>
      match parseGroup group with
      | (_, Some err) => ([], Some err)
      | (stmt, None) => parseRule_loop groups' (result ++ [stmt])
      end
  end.

Definition parseRule (rule : gostring)
  : option (run (list (list Stmt) * option error)) :=
  match scanGroups rule with
  | None => None
  | Some (Fatal m) => Some (Fatal m)
  | Some (Done groups) => Some (Done (parseRule_loop groups []))
  end.

(** ** Rule model builder *)

(** The loop of [makeSentinels] over the pieces of the path. *)
Fixpoint makeSentinels_path (vals : list gostring) (path : list gostring)
  : list gostring :=
  match vals with
  | [] => path
  | val :: vals' =>
      if strlen val =? 0 then makeSentinels_path vals' path
      else makeSentinels_path vals' (path ++ [val])
  end.

(** The loop of [makeSentinels] over the rule strings. *)
Fixpoint makeSentinels_rules (vals : list gostring)
  (rules : list (list (list Stmt)))
  : option (run (list (list (list Stmt)) * option error)) :=
  match vals with
  | [] => Some (Done (rules, None))
  | val :: vals' =>
      match parseRule val with
      | None => None
      | Some (Fatal m) => Some (Fatal m)
      | Some (Done (_, Some err)) => Some (Done ([], Some err))
      | Some (Done (rule, None)) =>
          makeSentinels_rules vals' (rules ++ [rule])
      end
  end.

Fixpoint makeSentinels_loop (endpoints : list Endpoint)
  (result : list Sentinel) : option (run (list Sentinel * option error)) :=
  match endpoints with
  | [] => Some (Done (result, None))
  | endpoint :: endpoints' =>
      let path := makeSentinels_path (Split (ep_Path endpoint) SLASH) [] in
      match makeSentinels_rules (ep_Rules endpoint) [] with
      | None => None
      | Some (Fatal m) => Some (Fatal m)
      | Some (Done (_, Some err)) => Some (Done ([], Some err))
      | Some (Done (rules, None)) =>
          makeSentinels_loop endpoints'
            (result ++ [mkSentinel (ep_Method endpoint) path rules])
      end
  end.

Definition makeSentinels (endpoints : list Endpoint)
  : option (run (list Sentinel * option error)) :=
  makeSentinels_loop endpoints [].

(** ** Binary encoder *)

Definition uint16 (z : Z) : Z := z mod 2 ^ 16.
Definition uint32 (z : Z) : Z := z mod 2 ^ 32.
Definition uint64 (z : Z) : Z := z mod 2 ^ 64.

(** The [n] bytes [binary.LittleEndian] puts for an unsigned integer. *)
Fixpoint le (n : nat) (v : Z) : list byte :=
  match n with
  | O => []
  | S n' => v mod 256 :: le n' (v / 256)
  end.

(** [io.Writer]: [Write] hands back the sink as it is after the call and the
    error; the count of bytes written is never looked at by the source. *)
Class Writer (W : Type) := Write : W -> list byte -> W * option error.

(** [NopWriter] is a [uint64] that counts. *)
Definition NopWriter := Z.

#[export] Instance NopWriter_Writer : Writer NopWriter :=
  fun w data => (uint64 (w + len data), None).

Definition Offset (w : NopWriter) : Z := uint64 w.

(** The open output file: what has been written to it and how many more
    bytes the device takes ([None]: no limit).  A write that does not fit
    stores what fits and fails. *)
Record File := mkFile {
  data : list byte;
  room : option N
}.

#[export] Instance File_Writer : Writer File :=
  fun w bs =>
    match room w with
    | None => (mkFile (data w ++ bs) None, None)
    | Some n =>
        if (N.of_nat (length bs) <=? n)%N
        then (mkFile (data w ++ bs) (Some (n - N.of_nat (length bs))%N), None)
        else (mkFile (data w ++ firstn (N.to_nat n) bs) (Some 0%N),
              Some ENOSPC)
    end.

(** A routine that writes to [w] and returns an error. *)
Definition action (W : Type) := W -> W * option error.

(** [if err = m(w); err != nil { return err }], then [k]. *)
Definition andThen {W : Type} (m k : action W) : action W :=
  fun w =>
    match m w with
    | (w', Some err) => (w', Some err)
    | (w', None) => k w'
    end.

Notation "m ;; k" := (andThen m k) (at level 61, right associativity).

Definition ret {W : Type} (err : option error) : action W :=
  fun w => (w, err).

(** [for _, x := range xs { if err = f(w, x); err != nil { return err } }]. *)
Fixpoint each {W A : Type} (f : A -> action W) (xs : list A) : action W :=
  match xs with
  | [] => ret None
  | x :: xs' => f x ;; each f xs'
  end.

Definition getCtxCode (val : gostring) : Z * option error :=
  if eqs val (lit "headers") then (HEADERS, None)
  else if eqs val (lit "urlenc") then (URLENC, None)
  else if eqs val (lit "base64") then (BASE64, None)
  else if eqs val (lit "cookie") then (COOKIE, None)
  else if eqs val (lit "json") then (JSON, None)
  else if eqs val (lit "json_obj") then (JSON_OBJ, None)
  else if eqs val (lit "json_array") then (JSON_ARRAY, None)
  else if eqs val (lit "path") then (PATH, None)
  else if eqs val (lit "http") then (HTTP, None)
  else if eqs val (lit "auth_header") then (AUTH_HEADER, None)
  else if eqs val (lit "base64_url") then (BASE64_URL, None)
  else if eqs val (lit "jwt") then (JWT, None)
  else (0, Some (UnknownContext val)).

(** The loop of [writeCtx]: [r |= (1 << n)] for every context. *)
Fixpoint writeCtx_loop (contexts : list gostring) (r : Z) : Z * option error :=
  match contexts with
  | [] => (r, None)
  | c :: contexts' =>
      let ctx := TrimSpace c in
      match getCtxCode ctx with
      | (_, Some err) => (r, Some err)
      | (n, None) => writeCtx_loop contexts' (uint64 (Z.lor r (Z.shiftl 1 n)))
      end
  end.

Section Encoder.
Context {W : Type} `{Writer W}.

Definition writeUint64 (val : Z) : action W := fun w => Write w (le 8 val).
Definition writeUint16 (val : Z) : action W := fun w => Write w (le 2 val).
Definition writeUint8 (val : Z) : action W := fun w => Write w (le 1 val).

Definition writeStr (val : gostring) : action W :=
  writeUint16 (uint16 (strlen val)) ;;
  (fun w => Write w (bytes val)).

Definition writeCtx (val : gostring) : action W :=
  fun w =>
    match writeCtx_loop (Split val BAR) 0 with
    | (_, Some err) => (w, Some err)
    | (r, None) => writeUint64 r w
    end.

(** The body of the innermost loop of [writeSentinel]. *)
Definition writeSentinel_stmt (stmt : Stmt) : action W :=
  writeUint8 (Var stmt) ;;
  writeUint8 (Op stmt) ;;
  (if Var stmt =? CTX then
     writeUint8 NUMERIC ;; writeCtx (Val stmt)
   else if negb (strlen (Regexp stmt) =? 0) then
     writeUint8 REGEXP ;; writeStr (Regexp stmt)
   else
     writeUint8 STRING ;; writeStr (Val stmt)).

Definition writeSentinel_stmts (stmts : list Stmt) : action W :=
  writeUint16 (uint16 (len stmts)) ;;
  each writeSentinel_stmt stmts.

Definition writeSentinel_groups (groups : list (list Stmt)) : action W :=
  writeUint16 (uint16 (len groups)) ;;
  each writeSentinel_stmts groups.

Definition writeSentinel (snt : Sentinel) : action W :=
  writeStr (Method snt) ;;
  writeUint16 (uint16 (len (Path snt))) ;;
  each writeStr (Path snt) ;;
  writeUint16 (uint16 (len (Rules snt))) ;;
  each writeSentinel_groups (Rules snt).

End Encoder.

(** [offsetTable]: the counting pass.  The results of [binary.Write] on the
    [NopWriter] are dropped, as in the source. *)
Fixpoint offsetTable_zeros (n : nat) (w : NopWriter) : NopWriter :=
  match n with
  | O => w
  | S n' => offsetTable_zeros n' (fst (Write w (le 8 (uint64 0))))
  end.

Fixpoint offsetTable_loop (snts : list Sentinel) (w : NopWriter)
  (result : list Z) : list Z * option error :=
  match snts with
  | [] => (result, None)
  | snt :: snts' =>
      let result' := result ++ [Offset w] in
      match writeSentinel snt w with
      | (_, Some err) => ([], Some err)
      | (w', None) => offsetTable_loop snts' w' result'
      end
  end.

Definition offsetTable (snts : list Sentinel) : list Z * option error :=
  let w : NopWriter := 0 in
  let w := fst (Write w (le 4 (uint32 0))) in
  let w := fst (Write w (le 2 (uint16 (len snts)))) in
  let w := offsetTable_zeros (length snts) w in
  let w := fst (Write w (le 2 (uint16 (len snts)))) in
  offsetTable_loop snts w [].

(** The file system as [writeSentinels] meets it: for every path, whether
    [os.OpenFile] is refused there, how many bytes the device takes for the
    file, and the content stored ([None]: no such file). *)
Record Slot := mkSlot {
  refused : bool;
  space : option N;
  stored : option (list byte)
}.

Definition Disk := gostring -> Slot.

(** [os.OpenFile(path, O_WRONLY|O_CREATE|O_TRUNC, 0655)]. *)
Definition OpenFile (path : gostring) (d : Disk) : File * option error :=
  if refused (d path) then (mkFile [] None, Some EACCES)
  else (mkFile [] (space (d path)), None).

(** The disk once [w] is what has been written at [path]. *)
Definition commit (path : gostring) (w : File) (d : Disk) : Disk :=
  fun p => if eqs p path then mkSlot false (room w) (Some (data w)) else d p.

(** What [writeSentinels] does on the open file. *)
Definition writeSentinels_file (snts : list Sentinel) : action File :=
  (fun w => Write w (le 4 (uint32 VERSION))) ;;
  (fun w =>
     match offsetTable snts with
     | (_, Some err) => (w, Some err)
     | (offs, None) =>
         (writeUint16 (uint16 (len offs)) ;;
          each writeUint64 offs ;;
          writeUint16 (uint16 (len snts)) ;;
          each writeSentinel snts) w
     end).

Definition writeSentinels (path : gostring) (snts : list Sentinel) (d : Disk)
  : Disk * option error :=
  match OpenFile path d with
  | (_, Some err) => (d, Some err)
  | (w, None) =>
      let '(w', err) := writeSentinels_file snts w in
      (commit path w' d, err)
  end.

(** ** Reading the endpoints *)

(** What the JSON decoder makes of the input: [Decode] stores a value,
    meets the end of the input before any value, or fails. *)
Inductive Decoding :=
| Decoded (v : list Endpoint)
| AtEOF
| Malformed (err : error).

(** The input file: [os.Open] fails, or the file is there to decode. *)
Inductive Input :=
| Unreadable (err : error)
| Readable (c : Decoding).

(** [dec.Decode(&result)]: the content of [result] after the call, and the
    error. *)
Definition Decode (c : Decoding) (result : list Endpoint)
  : list Endpoint * option error :=
  match c with
  | Decoded v => (v, None)
  | AtEOF => (result, Some EOF)
  | Malformed err => (result, Some err)
  end.

Definition is_EOF (err : error) : bool :=
  match err with
  | EOF => true
  | _ => false
  end.

Definition readEndpoints (i : Input) : list Endpoint * option error :=
  match i with
  | Unreadable err => ([], Some err)
  | Readable c =>
      let '(result, err) := Decode c [] in
      match err with
      | Some e => if negb (is_EOF e) then ([], Some e) else (result, None)
      | None => (result, None)
      end
  end.

(** [main]: how the process ends, and the disk it leaves.  The dumps of
    the debug mode go to the standard output and are left out. *)
Inductive exit :=
| Exit0
| LogFatal (err : error)
| LogFatalln (msg : string).

Definition main (i : Input) (output : gostring) (d : Disk)
  : option (Disk * exit) :=
  match readEndpoints i with
  | (_, Some err) => Some (d, LogFatal err)
  | (epts, None) =>
      match makeSentinels epts with
      | None => None
      | Some (Fatal m) => Some (d, LogFatalln m)
      | Some (Done (_, Some err)) => Some (d, LogFatal err)
      | Some (Done (snts, None)) =>
          match writeSentinels output snts d with
          | (d', Some err) => Some (d', LogFatal err)
          | (d', None) => Some (d', Exit0)
          end
      end
  end.

(** * Vocabulary of the properties *)

(** ** Reading the output back *)

(** The unsigned integer a run of little-endian bytes stands for. *)
Fixpoint le_decode (bs : list byte) : Z :=
  match bs with
  | [] => 0
  | b :: bs' => b + 256 * le_decode bs'
  end.

(** The [n]-byte integer at byte [off] of [out]. *)
Definition field (out : list byte) (off : Z) (n : nat) : Z :=
  le_decode (firstn n (skipn (Z.to_nat off) out)).

(** The record of a sentinel: what [writeSentinel] writes for it to an
    empty file on a device without limit. *)
Definition record (snt : Sentinel) : list byte :=
  data (fst (writeSentinel snt (mkFile [] None))).

(** ** Context names *)

(** The names a [$ctx] value lists, as [writeCtx] looks them up. *)
Definition ctx_names (val : gostring) : list gostring :=
  map TrimSpace (Split val BAR).

Definition unknown_ctx (name : gostring) : Prop :=
  snd (getCtxCode name) <> None.

(** [stmt] is a [$ctx] statement of a clause of a rule of [snts]. *)
Definition ctx_stmt_of (snts : list Sentinel) (stmt : Stmt) : Prop :=
  exists snt rule clause,
    In snt snts /\ In rule (Rules snt) /\ In clause rule /\ In stmt clause /\
    Var stmt = CTX.

(** The error [writeCtx] returns for a statement, if it is a [$ctx]
    statement, and the first error along a list. *)
Definition ctx_error (stmt : Stmt) : option error :=
  if Var stmt =? CTX then snd (writeCtx_loop (Split (Val stmt) BAR) 0)
  else None.

Fixpoint first_error {A : Type} (f : A -> option error) (xs : list A)
  : option error :=
  match xs with
  | [] => None
  | x :: xs' =>
      match f x with
      | Some e => Some e
      | None => first_error f xs'
      end
  end.

Definition sentinel_error (snt : Sentinel) : option error :=
  first_error (first_error (first_error ctx_error)) (Rules snt).

Definition sentinels_error (snts : list Sentinel) : option error :=
  first_error sentinel_error snts.

(** ** The wire format *)

(** The layout of section 4.4 of the specification, written as a function
    from the rule model to bytes: every count and every length is the 2-byte
    little-endian form of the value modulo 2^16, offsets take 8 bytes. *)
Module Wire.

Definition u16 (n : Z) : list byte := le 2 (n mod 2 ^ 16).

Definition str (s : gostring) : list byte := u16 (strlen s) ++ bytes s.

(** The table of context codes. *)
Definition context_codes : list (gostring * Z) :=
  [(lit "http", 1); (lit "path", 2); (lit "urlenc", 3); (lit "headers", 4);
   (lit "json", 5); (lit "json_obj", 6); (lit "json_array", 7);
   (lit "cookie", 8); (lit "base64", 9); (lit "base64_url", 10);
   (lit "auth_header", 11); (lit "jwt", 12)].

Fixpoint lookup (name : gostring) (table : list (gostring * Z)) : option Z :=
  match table with
  | [] => None
  | (k, v) :: table' => if eqs name k then Some v else lookup name table'
  end.

Definition context_code (name : gostring) : option Z :=
  lookup name context_codes.

(** The union of [1 << code] over the names of a context list. *)
Fixpoint mask (names : list gostring) : Z :=
  match names with
  | [] => 0
  | name :: names' =>
      Z.lor (match context_code name with
             | Some n => Z.shiftl 1 n
             | None => 0
             end) (mask names')
  end.

Definition value (stmt : Stmt) : list byte :=
  if Var stmt =? 1 then 1 :: le 8 (mask (ctx_names (Val stmt)))
  else if strlen (Regexp stmt) =? 0 then 2 :: str (Val stmt)
  else 3 :: str (Regexp stmt).

Definition statement (stmt : Stmt) : list byte :=
  le 1 (Var stmt) ++ le 1 (Op stmt) ++ value stmt.

Definition clause (c : list Stmt) : list byte :=
  u16 (len c) ++ flat_map statement c.

Definition rule (r : list (list Stmt)) : list byte :=
  u16 (len r) ++ flat_map clause r.

Definition sentinel (snt : Sentinel) : list byte :=
  str (Method snt) ++
  u16 (len (Path snt)) ++ flat_map str (Path snt) ++
  u16 (len (Rules snt)) ++ flat_map rule (Rules snt).

(** The start of every record, the first one at [start]. *)
Fixpoint offsets (start : Z) (snts : list Sentinel) : list Z :=
  match snts with
  | [] => []
  | snt :: snts' => start :: offsets (start + len (sentinel snt)) snts'
  end.

Definition stream (snts : list Sentinel) : list byte :=
  le 4 4 ++
  u16 (len snts) ++
  flat_map (le 8) (offsets (4 + 2 + 8 * len snts + 2) snts) ++
  u16 (len snts) ++
  flat_map sentinel snts.

End Wire.

(** ** Laws of a sink *)

(** The states of a sink the laws are about: a [NopWriter] is a [uint64],
    any state of a file will do. *)
Class Valid (W : Type) := valid : W -> Prop.

#[export] Instance NopWriter_Valid : Valid NopWriter :=
  fun w => 0 <= w < 2 ^ 64.

#[export] Instance File_Valid : Valid File := fun _ => True.

(** A sink for which writing piece by piece is writing the whole.  Both
    sinks of the compiler are of this kind. *)
Class Lawful (W : Type) `{Writer W} `{Valid W} : Prop := {
  Write_valid : forall w bs, valid w -> valid (fst (Write w bs));
  Write_nil : forall w, valid w -> Write w [] = (w, None);
  Write_app : forall w a b, valid w ->
    Write w (a ++ b) =
    ((fun w => Write w a) ;; (fun w => Write w b)) w
}.

(** [m] writes the bytes [bs] and returns what the sink returns for
    them. *)
Definition writes {W : Type} `{Writer W} `{Valid W} (m : action W)
  (bs : list byte)
  : Prop :=
  forall w, valid w -> m w = Write w bs.

(** Writing [bs] and then returning [err], unless the sink fails first. *)
Definition feed {W : Type} `{Writer W} (bs : list byte) (err : option error)
  : action W :=
  (fun w => Write w bs) ;; ret err.

(** [m] writes some bytes and returns the error [err], unless the sink fails
    first. *)
Definition fails {W : Type} `{Writer W} `{Valid W} (m : action W)
  (err : error) : Prop :=
  forall w, valid w -> exists bs, m w = feed bs (Some err) w.

(** ** Tokens and groups *)

(** The statement under construction never completes along [tokens]: every
    token is accepted and leaves [parseGroup_complete] false. *)
Fixpoint never_completes (tokens : list gostring) (curr : Stmt) : bool :=
  match tokens with
  | [] => true
  | token :: tokens' =>
      match parseGroup_token curr token with
      | (_, Some _) => false
      | (curr', None) =>
          negb (parseGroup_complete curr') && never_completes tokens' curr'
      end
  end.

(** [strings.Join(pieces, sep)] for a separator of one rune. *)
Fixpoint Join (pieces : list gostring) (sep : rune) : gostring :=
  match pieces with
  | [] => []
  | [p] => p
  | p :: pieces' => p ++ sep :: Join pieces' sep
  end.

(** The body of a literal as the scanner reads it: a rune that stands for
    itself, or a backslash and the rune after it. *)
Inductive item :=
| Plain (c : rune)
| Escaped (c : rune).

(** The runes of the source text an item takes, and the rune it means. *)
Definition item_source (i : item) : gostring :=
  match i with
  | Plain c => [c]
  | Escaped c => [BACKSLASH; c]
  end.

Definition item_rune (i : item) : rune :=
  match i with
  | Plain c => c
  | Escaped c => c
  end.

(** A plain rune is neither the backslash nor the closing delimiter. *)
Definition item_ok (delim : rune) (i : item) : Prop :=
  match i with
  | Plain c => c <> BACKSLASH /\ c <> delim
  | Escaped _ => True
  end.

(** Results with a group, or a clause, put in front. *)
Definition run_map {A B : Type} (f : A -> B) (r : option (run A))
  : option (run B) :=
  match r with
  | None => None
  | Some (Fatal m) => Some (Fatal m)
  | Some (Done a) => Some (Done (f a))
  end.

Definition with_clause (c : list Stmt) (r : list (list Stmt) * option error)
  : list (list Stmt) * option error :=
  match r with
  | (_, Some err) => ([], Some err)
  | (rule, None) => (c :: rule, None)
  end.

(** ** Tokens, values and paths of the further properties *)

(** What holds of every token [scanGroups] makes: it has a first rune,
    which is neither white space nor a colon; a token opened by a delimiter
    ends with that delimiter; any other token holds no white space. *)
Definition token_ok (tok : gostring) : Prop :=
  exists r rest,
    tok = r :: rest /\
    IsSpace r = false /\ r <> COLON /\
    (r = QUOTE \/ r = SLASH -> exists body, rest = body ++ [r]) /\
    (r <> QUOTE -> r <> SLASH -> Forall (fun c => IsSpace c = false) rest).

(** The error [parseGroup] returns for a token, whatever the statement under
    construction is. *)
Definition token_error (token : gostring) : option error :=
  if HasPrefix1 token QUOTE then None
  else if HasPrefix1 token SLASH then None
  else if HasPrefix1 token DOLLAR then snd (parseVar token)
  else snd (parseOp token).

(** A value written as the body of a literal: a backslash before every
    backslash and every delimiter. *)
Definition escape (delim : rune) (v : gostring) : gostring :=
  flat_map (fun c => if (c =? BACKSLASH) || (c =? delim)
                     then [BACKSLASH; c] else [c]) v.

(** The fields and operators a compiled statement may hold. *)
Definition stmt_codes (s : Stmt) : Prop :=
  0 <= Var s <= 4 /\ 0 <= Op s <= 4.

(** A statement as [parseGroup] appends it: complete, its field one of
    the codes or none, its operator one of the codes. *)
Definition compiled_ok (s : Stmt) : Prop :=
  parseGroup_complete s = true /\ 0 <= Var s <= 4 /\ 1 <= Op s <= 4.

(** [snt] is what [makeSentinels] makes of the endpoint [e]: the method,
    the path cut in segments, and the rule of each rule string in turn. *)
Definition compiles (e : Endpoint) (snt : Sentinel) : Prop :=
  Method snt = ep_Method e /\
  Path snt = makeSentinels_path (Split (ep_Path e) SLASH) [] /\
  Forall2 (fun val rule => parseRule val = Some (Done (rule, None)))
    (ep_Rules e) (Rules snt).

(** ** The first unknown context *)

(** The statements of the rules of [snts], in the order in which
    [writeSentinel] writes them. *)
Definition statements (snts : list Sentinel) : list Stmt :=
  flat_map
    (fun snt =>
       flat_map (fun rule => flat_map (fun clause => clause) rule)
         (Rules snt)) snts.

(** [stmt] lists no unknown context; so does every statement whose field
    is not [$ctx]. *)
Definition lists_known (stmt : Stmt) : Prop :=
  Var stmt = CTX ->
  Forall (fun name => ~ unknown_ctx name) (ctx_names (Val stmt)).

(** [name] is the first unknown context met along [snts]: the statements
    before the one that lists it list none, and in the value of that
    statement the names before it are known. *)
Definition first_unknown (snts : list Sentinel) (name : gostring) : Prop :=
  exists spre stmt spost pre post,
    statements snts = spre ++ stmt :: spost /\
    Forall lists_known spre /\
    Var stmt = CTX /\
    ctx_names (Val stmt) = pre ++ name :: post /\
    Forall (fun n => ~ unknown_ctx n) pre /\
    unknown_ctx name.

(** * Properties *)

(** ** Strings *)

Lemma eqs_eq (a b : gostring) : eqs a b = true <-> a = b.
Proof.
  revert b; induction a as [|x a IH]; intros [|y b]; simpl;
    try (split; [discriminate | congruence]); [tauto|].
  rewrite andb_true_iff, Z.eqb_eq, IH. split.
  - intros [-> ->]; reflexivity.
  - intros E; injection E; auto.
Qed.

Lemma eqs_refl (a : gostring) : eqs a a = true.
Proof. apply eqs_eq; reflexivity. Qed.

Lemma EncodeRune_length (r : rune) : (1 <= length (EncodeRune r))%nat.
Proof.
  unfold EncodeRune, RuneError.
  repeat match goal with |- context [if ?c then _ else _] => destruct c end;
    simpl; lia.
Qed.

Lemma strlen_nil_iff (s : gostring) : strlen s = 0 <-> s = [].
Proof.
  unfold strlen, len, bytes. destruct s as [|r s]; simpl.
  - tauto.
  - split; [|discriminate]. rewrite length_app.
    pose proof (EncodeRune_length r). lia.
Qed.

Lemma strlen_eqb (s : gostring) :
  (strlen s =? 0) = match s with [] => true | _ :: _ => false end.
Proof.
  destruct s as [|r s].
  - reflexivity.
  - apply Z.eqb_neq. rewrite strlen_nil_iff. discriminate.
Qed.

Lemma len_app {A : Type} (a b : list A) : len (a ++ b) = len a + len b.
Proof. unfold len. rewrite length_app. lia. Qed.

Lemma len_nonneg {A : Type} (a : list A) : 0 <= len a.
Proof. unfold len. lia. Qed.

(** ** Condition parser *)

Lemma parseGroup_complete_iff (curr : Stmt) :
  parseGroup_complete curr = true <->
  (Var curr <> 0 /\ Op curr <> 0 /\ (Val curr <> [] \/ Regexp curr <> []))
  \/ Op curr = BLOCK \/ Op curr = PASS.
Proof.
  unfold parseGroup_complete.
  rewrite !orb_true_iff, !andb_true_iff, orb_true_iff, !negb_true_iff,
    !Z.eqb_neq, !Z.eqb_eq, !strlen_nil_iff.
  tauto.
Qed.

Lemma parseGroup_token_block (curr : Stmt) :
  parseGroup_token curr (lit "block") =
  (mkStmt (Var curr) BLOCK (Val curr) (Regexp curr), None).
Proof. reflexivity. Qed.

Lemma parseGroup_token_pass (curr : Stmt) :
  parseGroup_token curr (lit "pass") =
  (mkStmt (Var curr) PASS (Val curr) (Regexp curr), None).
Proof. reflexivity. Qed.

Lemma parseGroup_loop_cons token tokens result curr :
  parseGroup_loop (token :: tokens) result curr =
  match parseGroup_token curr token with
  | (_, Some err) => ([], Some err)
  | (curr', None) =>
      if parseGroup_complete curr'
      then parseGroup_loop tokens (result ++ [curr']) Stmt0
      else parseGroup_loop tokens result curr'
  end.
Proof. reflexivity. Qed.

(** C4: [parseGroup] takes the tokens from left to right into the statement
    under construction; after a token it appends the statement and resets it
    exactly when the statement has a field, an operator and a non-empty
    string or regex value, or when its operator is [block] or [pass].  So a
    bare [block] or [pass] completes at once whatever the field and value
    are, and several statements complete one after the other in a group. *)
Theorem parseGroup_completion :
  (forall token tokens result curr curr',
     parseGroup_token curr token = (curr', None) ->
     ((Var curr' <> 0 /\ Op curr' <> 0 /\
       (Val curr' <> [] \/ Regexp curr' <> []))
      \/ Op curr' = BLOCK \/ Op curr' = PASS ->
      parseGroup_loop (token :: tokens) result curr =
      parseGroup_loop tokens (result ++ [curr']) Stmt0) /\
     (~ ((Var curr' <> 0 /\ Op curr' <> 0 /\
          (Val curr' <> [] \/ Regexp curr' <> []))
         \/ Op curr' = BLOCK \/ Op curr' = PASS) ->
      parseGroup_loop (token :: tokens) result curr =
      parseGroup_loop tokens result curr')) /\
  (forall tokens result curr,
     parseGroup_loop (lit "block" :: tokens) result curr =
     parseGroup_loop tokens
       (result ++ [mkStmt (Var curr) BLOCK (Val curr) (Regexp curr)]) Stmt0) /\
  (forall tokens result curr,
     parseGroup_loop (lit "pass" :: tokens) result curr =
     parseGroup_loop tokens
       (result ++ [mkStmt (Var curr) PASS (Val curr) (Regexp curr)]) Stmt0) /\
  parseGroup [lit "$ctx"; lit "=="; lit "'json'";
              lit "$key"; lit "=="; lit "/^id/"; lit "block"] =
  ([mkStmt CTX EQ (lit "json") []; mkStmt KEY EQ [] (lit "/^id/");
    mkStmt 0 BLOCK [] []], None).
Proof.
  split; [|split; [|split]].
  - intros token tokens result curr curr' Htok.
    rewrite parseGroup_loop_cons, Htok.
    rewrite <- parseGroup_complete_iff.
    destruct (parseGroup_complete curr'); split; intros Hc;
      try reflexivity; try discriminate.
    exfalso; apply Hc; reflexivity.
  - intros. rewrite parseGroup_loop_cons, parseGroup_token_block.
    rewrite (proj2 (parseGroup_complete_iff _)); [reflexivity|].
    right; left; reflexivity.
  - intros. rewrite parseGroup_loop_cons, parseGroup_token_pass.
    rewrite (proj2 (parseGroup_complete_iff _)); [reflexivity|].
    right; right; reflexivity.
  - reflexivity.
Qed.

Lemma parseGroup_completion_witness :
  parseGroup_loop [lit "'admin'"; lit "pass"] []
    (mkStmt VAL EQ [] []) =
  parseGroup_loop [lit "pass"] [mkStmt VAL EQ (lit "admin") []] Stmt0.
Proof.
  refine (proj1 (proj1 parseGroup_completion (lit "'admin'") [lit "pass"] []
                   (mkStmt VAL EQ [] []) (mkStmt VAL EQ (lit "admin") [])
                   _) _).
  - reflexivity.
  - left. repeat split; try discriminate. left; discriminate.
Defined.

(** C8: at the end of a group the statement under construction is dropped:
    tokens that never bring it to completion add nothing to the result and
    raise no error, as in the group [$key ==]. *)
Theorem parseGroup_drops_incomplete :
  forall tokens result curr,
    never_completes tokens curr = true ->
    parseGroup_loop tokens result curr = (result, None).
Proof.
  induction tokens as [|token tokens IH]; intros result curr Hn; simpl in *.
  - reflexivity.
  - destruct (parseGroup_token curr token) as [curr' [err|]];
      [discriminate|].
    apply andb_true_iff in Hn. destruct Hn as [Hc Hn].
    apply negb_true_iff in Hc. rewrite Hc. apply IH, Hn.
Qed.

Lemma parseGroup_drops_incomplete_witness :
  parseGroup [lit "$key"; lit "=="] = ([], None).
Proof.
  apply (parseGroup_drops_incomplete [lit "$key"; lit "=="] [] Stmt0).
  reflexivity.
Defined.

(** ** Rule model builder *)

(** [Split] cuts at every separator and nowhere else: joining the pieces
    gives the string back, and no piece holds a separator. *)
Lemma Split_from_cons (s cur : gostring) (sep : rune) :
  exists p ps, Split_from cur s sep = p :: ps.
Proof.
  revert cur; induction s as [|r s IH]; intros cur; simpl.
  - eauto.
  - destruct (r =? sep); [eauto | apply IH].
Qed.

Lemma Split_from_Join (s cur : gostring) (sep : rune) :
  Join (Split_from cur s sep) sep = cur ++ s.
Proof.
  revert cur; induction s as [|r s IH]; intros cur; simpl.
  - rewrite app_nil_r; reflexivity.
  - destruct (Z.eqb_spec r sep) as [->|Hne].
    + specialize (IH []). simpl in IH.
      destruct (Split_from_cons s [] sep) as (p & ps & E).
      rewrite E in *.
      change (Join (cur :: p :: ps) sep) with
        (cur ++ sep :: Join (p :: ps) sep).
      rewrite IH. reflexivity.
    + rewrite IH, <- app_assoc. reflexivity.
Qed.

Lemma Split_Join (s : gostring) (sep : rune) : Join (Split s sep) sep = s.
Proof. apply (Split_from_Join s []). Qed.

Lemma Split_from_no_sep (s cur : gostring) (sep : rune) :
  ~ In sep cur ->
  Forall (fun p => ~ In sep p) (Split_from cur s sep).
Proof.
  revert cur; induction s as [|r s IH]; intros cur Hcur; simpl.
  - constructor; [assumption | constructor].
  - destruct (Z.eqb_spec r sep) as [->|Hne].
    + constructor; [assumption|]. apply IH. intros [].
    + apply IH. rewrite in_app_iff. simpl. intuition congruence.
Qed.

Lemma Split_no_sep (s : gostring) (sep : rune) :
  Forall (fun p => ~ In sep p) (Split s sep).
Proof. apply Split_from_no_sep. intros []. Qed.

Lemma makeSentinels_path_filter (vals path : list gostring) :
  makeSentinels_path vals path =
  path ++ filter (fun val => negb (eqs val [])) vals.
Proof.
  revert path; induction vals as [|val vals IH]; intros path; simpl.
  - rewrite app_nil_r; reflexivity.
  - rewrite strlen_eqb. destruct val as [|r val]; simpl.
    + apply IH.
    + rewrite IH, <- app_assoc. reflexivity.
Qed.

Lemma makeSentinels_loop_paths (endpoints : list Endpoint) :
  forall result snts,
    makeSentinels_loop endpoints result = Some (Done (snts, None)) ->
    exists added,
      snts = result ++ added /\
      map Path added =
      map (fun e => filter (fun val => negb (eqs val []))
                      (Split (ep_Path e) SLASH)) endpoints.
Proof.
  induction endpoints as [|e endpoints IH]; intros result snts Hrun;
    simpl in Hrun.
  - injection Hrun as <-. exists []. rewrite app_nil_r. split; reflexivity.
  - destruct (makeSentinels_rules (ep_Rules e) []) as [[[rules [err|]]|m]|];
      try discriminate.
    apply IH in Hrun. destruct Hrun as (added & -> & Hmap).
    eexists (_ :: added). rewrite <- app_assoc. split; [reflexivity|].
    simpl. rewrite Hmap, makeSentinels_path_filter. reflexivity.
Qed.

(** C6: the path of a compiled sentinel is the path of its endpoint split at
    every [/], the empty pieces left out, so that no segment is empty:
    [/api/*] gives [api], [*]; [/] gives no segment; [/a//b/] gives [a],
    [b]. *)
Theorem makeSentinels_path_segments :
  (forall endpoints snts,
     makeSentinels endpoints = Some (Done (snts, None)) ->
     map Path snts =
     map (fun e => filter (fun val => negb (eqs val []))
                     (Split (ep_Path e) SLASH)) endpoints /\
     Forall (fun snt => Forall (fun seg => seg <> [] /\ ~ In SLASH seg)
                          (Path snt)) snts) /\
  (forall method,
     makeSentinels [mkEndpoint method (lit "/api/*") []] =
     Some (Done ([mkSentinel method [lit "api"; lit "*"] []], None))) /\
  (forall method,
     makeSentinels [mkEndpoint method (lit "/") []] =
     Some (Done ([mkSentinel method [] []], None))) /\
  (forall method,
     makeSentinels [mkEndpoint method (lit "/a//b/") []] =
     Some (Done ([mkSentinel method [lit "a"; lit "b"] []], None))).
Proof.
  split; [|repeat split; reflexivity].
  intros endpoints snts Hrun.
  apply makeSentinels_loop_paths in Hrun.
  destruct Hrun as (added & -> & Hmap). simpl. split; [assumption|].
  assert (Hall : Forall (fun p => Forall (fun seg => seg <> [] /\
                                            ~ In SLASH seg) p)
                   (map Path added)).
  { rewrite Hmap. apply Forall_forall. intros p Hp.
    apply in_map_iff in Hp. destruct Hp as (e & <- & _).
    apply Forall_forall. intros seg Hseg.
    apply filter_In in Hseg. destruct Hseg as [Hin Hne]. split.
    - intros ->. discriminate.
    - pose proof (Split_no_sep (ep_Path e) SLASH) as Hs.
      rewrite Forall_forall in Hs. apply Hs, Hin. }
  rewrite Forall_map in Hall. exact Hall.
Qed.

Lemma makeSentinels_path_segments_witness :
  map Path [mkSentinel (lit "GET") [lit "a"; lit "b"] []] =
  map (fun e => filter (fun val => negb (eqs val []))
                  (Split (ep_Path e) SLASH))
    [mkEndpoint (lit "GET") (lit "/a//b/") []].
Proof.
  refine (proj1 (proj1 makeSentinels_path_segments
                   [mkEndpoint (lit "GET") (lit "/a//b/") []] _ _)).
  reflexivity.
Defined.

(** ** Tokenizer *)

Lemma scanWord_length (src dst : gostring) :
  (length (snd (scanWord dst src)) <= length src)%nat.
Proof.
  revert dst; induction src as [|r src IH]; intros dst; simpl.
  - lia.
  - destruct (IsSpace r); simpl; [lia|]. specialize (IH (dst ++ [r])). lia.
Qed.

Lemma scanDelim_loop_length (src : gostring) :
  forall escape dst delim tok rest,
    scanDelim_loop escape dst src delim = Some (tok, rest) ->
    (length rest < length src)%nat.
Proof.
  induction src as [|r src IH]; intros escape dst delim tok rest Hs;
    simpl in Hs; [discriminate|].
  destruct escape.
  - apply IH in Hs. simpl; lia.
  - destruct (r =? BACKSLASH).
    + apply IH in Hs. simpl; lia.
    + destruct (r =? delim).
      * injection Hs as _ <-. simpl; lia.
      * apply IH in Hs. simpl; lia.
Qed.

(** Any budget above the length of the buffer gives the same run. *)
Lemma scanGroups_loop_fuel (f1 : nat) :
  forall f2 buf result group,
    (length buf < f1)%nat -> (length buf < f2)%nat ->
    scanGroups_loop f1 buf result group =
    scanGroups_loop f2 buf result group.
Proof.
  induction f1 as [|f1 IH]; intros f2 buf result group H1 H2; [lia|].
  destruct f2 as [|f2]; [lia|].
  destruct buf as [|r buf]; [reflexivity|].
  simpl in H1, H2. simpl.
  destruct (IsSpace r); [apply IH; lia|].
  destruct (r =? COLON); [apply IH; lia|].
  destruct (r =? QUOTE).
  { destruct (scanDelim [r] buf QUOTE) as [[tok rest]|] eqn:E;
      [|reflexivity].
    apply scanDelim_loop_length in E. apply IH; lia. }
  destruct (r =? SLASH).
  { destruct (scanDelim [r] buf SLASH) as [[tok rest]|] eqn:E;
      [|reflexivity].
    apply scanDelim_loop_length in E. apply IH; lia. }
  pose proof (scanWord_length buf [r]) as Hw.
  destruct (scanWord [r] buf) as [tok rest]. simpl in Hw. apply IH; lia.
Qed.

(** [scanGroups] returns or ends the process: the budget is never used up. *)
Lemma scanGroups_loop_returns (fuel : nat) :
  forall buf result group,
    (length buf < fuel)%nat ->
    scanGroups_loop fuel buf result group <> None.
Proof.
  induction fuel as [|fuel IH]; intros buf result group Hf; [lia|].
  destruct buf as [|r buf]; [discriminate|].
  simpl in Hf. simpl.
  destruct (IsSpace r); [apply IH; lia|].
  destruct (r =? COLON); [apply IH; lia|].
  destruct (r =? QUOTE).
  { destruct (scanDelim [r] buf QUOTE) as [[tok rest]|] eqn:E;
      [|discriminate].
    apply scanDelim_loop_length in E. apply IH; lia. }
  destruct (r =? SLASH).
  { destruct (scanDelim [r] buf SLASH) as [[tok rest]|] eqn:E;
      [|discriminate].
    apply scanDelim_loop_length in E. apply IH; lia. }
  pose proof (scanWord_length buf [r]) as Hw.
  destruct (scanWord [r] buf) as [tok rest]. simpl in Hw. apply IH; lia.
Qed.

Lemma scanGroups_returns (text : gostring) : scanGroups text <> None.
Proof. apply scanGroups_loop_returns. lia. Qed.

(** The steps of the loop, free of the budget. *)
Lemma scanGroups_loop_cons fuel r buf result group :
  scanGroups_loop (S fuel) (r :: buf) result group =
  if IsSpace r then scanGroups_loop fuel buf result group
  else if r =? COLON then scanGroups_loop fuel buf (result ++ [group]) []
  else if r =? QUOTE then
    match scanDelim [r] buf QUOTE with
    | None => Some (Fatal "invalid string")
    | Some (tok, buf'') => scanGroups_loop fuel buf'' result (group ++ [tok])
    end
  else if r =? SLASH then
    match scanDelim [r] buf SLASH with
    | None => Some (Fatal "invalid string")
    | Some (tok, buf'') => scanGroups_loop fuel buf'' result (group ++ [tok])
    end
  else
    let '(tok, buf'') := scanWord [r] buf in
    scanGroups_loop fuel buf'' result (group ++ [tok]).
Proof. reflexivity. Qed.

Lemma scanGroups_from_nil result group :
  scanGroups_from [] result group =
  Some (Done (match group with [] => result | _ :: _ => result ++ [group] end)).
Proof. destruct group; reflexivity. Qed.

Lemma scanGroups_from_colon buf result group :
  scanGroups_from (COLON :: buf) result group =
  scanGroups_from buf (result ++ [group]) [].
Proof.
  unfold scanGroups_from.
  change (length (COLON :: buf)) with (S (length buf)).
  rewrite scanGroups_loop_cons.
  change (IsSpace COLON) with false. change (COLON =? COLON) with true.
  cbv iota. apply scanGroups_loop_fuel; lia.
Qed.

Lemma scanGroups_from_space r buf result group :
  IsSpace r = true ->
  scanGroups_from (r :: buf) result group = scanGroups_from buf result group.
Proof.
  intros Hr. unfold scanGroups_from.
  change (length (r :: buf)) with (S (length buf)).
  rewrite scanGroups_loop_cons, Hr. apply scanGroups_loop_fuel; lia.
Qed.

(** A delimiter opens a literal: the scan goes on after the token that
    [scanDelim] hands back. *)
Lemma scanGroups_from_delim delim buf result group tok rest :
  delim = QUOTE \/ delim = SLASH ->
  scanDelim [delim] buf delim = Some (tok, rest) ->
  scanGroups_from (delim :: buf) result group =
  scanGroups_from rest result (group ++ [tok]).
Proof.
  intros Hd Hs. unfold scanGroups_from.
  change (length (delim :: buf)) with (S (length buf)).
  rewrite scanGroups_loop_cons.
  pose proof (scanDelim_loop_length _ _ _ _ _ _ Hs) as Hlen.
  destruct Hd as [-> | ->].
  - change (IsSpace QUOTE) with false. change (QUOTE =? COLON) with false.
    change (QUOTE =? QUOTE) with true. cbv iota. rewrite Hs.
    apply scanGroups_loop_fuel; lia.
  - change (IsSpace SLASH) with false. change (SLASH =? COLON) with false.
    change (SLASH =? QUOTE) with false. change (SLASH =? SLASH) with true.
    cbv iota. rewrite Hs. apply scanGroups_loop_fuel; lia.
Qed.

(** Inside a literal: items are copied without their backslash up to the
    closing delimiter. *)
Lemma scanDelim_loop_items delim (items : list item) :
  forall dst rest,
    delim <> BACKSLASH ->
    Forall (item_ok delim) items ->
    scanDelim_loop false dst (flat_map item_source items ++ delim :: rest)
      delim =
    Some (dst ++ map item_rune items ++ [delim], rest).
Proof.
  intros dst rest Hd. revert dst.
  induction items as [|i items IH]; intros dst Hok; simpl.
  - apply Z.eqb_neq in Hd. rewrite Hd, Z.eqb_refl. reflexivity.
  - inversion Hok as [|? ? Hi Hok']; subst.
    destruct i as [c|c]; simpl.
    + destruct Hi as [Hb Hc].
      apply Z.eqb_neq in Hb, Hc. rewrite Hb, Hc.
      rewrite IH by assumption. rewrite <- app_assoc. reflexivity.
    + change (BACKSLASH =? BACKSLASH) with true. cbv iota.
      rewrite IH by assumption. rewrite <- app_assoc. reflexivity.
Qed.

(** Conversely, whatever [scanDelim] accepts is a run of such items. *)
Lemma scanDelim_loop_inv delim (src : gostring) :
  forall escape dst tok rest,
    scanDelim_loop escape dst src delim = Some (tok, rest) ->
    exists items,
      Forall (item_ok delim) items /\
      (if escape then BACKSLASH :: src else src) =
        flat_map item_source items ++ delim :: rest /\
      tok = dst ++ map item_rune items ++ [delim].
Proof.
  induction src as [|r src IH]; intros escape dst tok rest Hs;
    simpl in Hs; [discriminate|].
  destruct escape.
  - apply IH in Hs. destruct Hs as (items & Hok & Hsrc & ->).
    exists (Escaped r :: items). simpl. rewrite Hsrc, <- app_assoc.
    repeat split. constructor; [exact I | assumption].
  - destruct (Z.eqb_spec r BACKSLASH) as [->|Hb].
    + apply IH in Hs. exact Hs.
    + destruct (Z.eqb_spec r delim) as [->|Hd].
      * injection Hs as <- <-. exists []. simpl. repeat split. constructor.
      * apply IH in Hs. destruct Hs as (items & Hok & Hsrc & ->).
        exists (Plain r :: items). simpl. rewrite Hsrc, <- app_assoc.
        repeat split. constructor; [split; assumption | assumption].
Qed.

(** C3, as the code has it: inside a string literal, and in the same way
    inside a regex literal delimited by [/], a backslash makes the rune after
    it part of the token whatever that rune is, and the backslash itself is
    left out of the token; the other runes are copied up to the closing
    delimiter, which ends the token.  Every literal token arises this way. *)
Theorem scanGroups_literal_escape :
  forall delim,
    delim = QUOTE \/ delim = SLASH ->
    (forall items rest result group,
       Forall (item_ok delim) items ->
       scanGroups_from (delim :: flat_map item_source items ++ delim :: rest)
         result group =
       scanGroups_from rest result
         (group ++ [delim :: map item_rune items ++ [delim]])) /\
    (forall buf tok rest,
       scanDelim [delim] buf delim = Some (tok, rest) ->
       exists items,
         Forall (item_ok delim) items /\
         buf = flat_map item_source items ++ delim :: rest /\
         tok = delim :: map item_rune items ++ [delim]).
Proof.
  intros delim Hd. split.
  - intros items rest result group Hok.
    apply scanGroups_from_delim; [assumption|].
    unfold scanDelim. rewrite scanDelim_loop_items; [reflexivity| |assumption].
    destruct Hd as [-> | ->]; discriminate.
  - intros buf tok rest Hs. unfold scanDelim in Hs.
    apply scanDelim_loop_inv in Hs. exact Hs.
Qed.

Lemma scanGroups_literal_escape_witness :
  scanGroups_from (lit "'a\'b' pass") [] [] =
  scanGroups_from (lit " pass") [] [lit "'a'b'"].
Proof.
  refine (proj1 (scanGroups_literal_escape QUOTE (or_introl eq_refl))
            [Plain 97; Escaped QUOTE; Plain 98] (lit " pass") [] [] _).
  repeat constructor; discriminate.
Defined.

(** C3 as stated fails: the token of ['a\'b'] holds no backslash. *)
Lemma scanGroups_escape_dropped :
  exists tok,
    scanGroups (lit "'a\'b'") = Some (Done [[tok]]) /\ ~ In BACKSLASH tok.
Proof.
  exists (lit "'a'b'"). split; [reflexivity|].
  simpl. unfold BACKSLASH. intuition discriminate.
Qed.

Lemma scanGroups_loop_prefix (fuel : nat) :
  forall pre buf result group,
    scanGroups_loop fuel buf (pre ++ result) group =
    run_map (app pre) (scanGroups_loop fuel buf result group).
Proof.
  induction fuel as [|fuel IH]; intros pre buf result group; [reflexivity|].
  destruct buf as [|r buf].
  - simpl. destruct (len group =? 0); [reflexivity|].
    rewrite app_assoc. reflexivity.
  - rewrite !scanGroups_loop_cons.
    destruct (IsSpace r); [apply IH|].
    destruct (r =? COLON); [rewrite <- app_assoc; apply IH|].
    destruct (r =? QUOTE).
    { destruct (scanDelim [r] buf QUOTE) as [[tok rest]|];
        [apply IH | reflexivity]. }
    destruct (r =? SLASH).
    { destruct (scanDelim [r] buf SLASH) as [[tok rest]|];
        [apply IH | reflexivity]. }
    destruct (scanWord [r] buf) as [tok rest]. apply IH.
Qed.

Lemma parseRule_loop_prefix (groups : list (list gostring)) :
  forall pre result,
    parseRule_loop groups (pre ++ result) =
    match parseRule_loop groups result with
    | (_, Some err) => ([], Some err)
    | (rule, None) => (pre ++ rule, None)
    end.
Proof.
  induction groups as [|g groups IH]; intros pre result; simpl.
  - reflexivity.
  - destruct (parseGroup g) as [stmt [err|]]; [reflexivity|].
    rewrite <- app_assoc. apply IH.
Qed.

(** A rune that is neither white space, nor a colon, nor a delimiter opens
    a bare word, which [scanWord] reads up to the next white space. *)
Lemma scanGroups_from_word r buf result group :
  IsSpace r = false ->
  r <> COLON -> r <> QUOTE -> r <> SLASH ->
  scanGroups_from (r :: buf) result group =
  scanGroups_from (snd (scanWord [r] buf)) result
    (group ++ [fst (scanWord [r] buf)]).
Proof.
  intros Hs Hc Hq Hl. unfold scanGroups_from.
  change (length (r :: buf)) with (S (length buf)).
  rewrite scanGroups_loop_cons, Hs.
  apply Z.eqb_neq in Hc, Hq, Hl. rewrite Hc, Hq, Hl.
  pose proof (scanWord_length buf [r]) as Hw.
  destruct (scanWord [r] buf) as [tok rest]. cbn [fst snd] in *.
  apply scanGroups_loop_fuel; lia.
Qed.

Lemma scanWord_word (w : gostring) :
  forall dst sp rest,
    Forall (fun c => IsSpace c = false) w ->
    IsSpace sp = true ->
    scanWord dst (w ++ sp :: rest) = (dst ++ w, rest).
Proof.
  induction w as [|c w IH]; intros dst sp rest Hw Hsp; simpl.
  - rewrite Hsp, app_nil_r. reflexivity.
  - inversion Hw as [|? ? Hc Hw']; subst. rewrite Hc.
    rewrite IH by assumption. rewrite <- app_assoc. reflexivity.
Qed.

Lemma scanWord_end (w : gostring) :
  forall dst,
    Forall (fun c => IsSpace c = false) w ->
    scanWord dst w = (dst ++ w, []).
Proof.
  induction w as [|c w IH]; intros dst Hw; simpl.
  - rewrite app_nil_r. reflexivity.
  - inversion Hw as [|? ? Hc Hw']; subst. rewrite Hc.
    rewrite IH by assumption. rewrite <- app_assoc. reflexivity.
Qed.

Lemma scanGroups_from_nil_snoc result group tok :
  scanGroups_from [] result (group ++ [tok]) =
  Some (Done (result ++ [group ++ [tok]])).
Proof. destruct group; reflexivity. Qed.

(** C9, as the code has it: a colon met where a token may start, that is
    outside a literal and not within a bare word, closes the current group
    whether or not it holds a token, so a rule that starts with a colon, or
    has one colon after the other, has empty groups, and [parseRule] makes of
    each a clause without statements; an empty group is left out only at the
    end of the input.  A colon that comes after one or more runes of a bare
    word, however many, is a rune of that word: the word goes on through it up
    to the next white space or the end of the input, and no group is
    closed. *)
Theorem scanGroups_colon_flushes :
  (forall buf result group,
     scanGroups_from (COLON :: buf) result group =
     scanGroups_from buf (result ++ [group]) []) /\
  (forall result group,
     scanGroups_from [] result group =
     Some (Done (match group with
                 | [] => result
                 | _ :: _ => result ++ [group]
                 end))) /\
  (forall rest,
     scanGroups (COLON :: rest) = run_map (cons []) (scanGroups rest)) /\
  (forall rest,
     parseRule (COLON :: rest) = run_map (with_clause []) (parseRule rest)) /\
  scanGroups (lit "$key : : pass :") =
    Some (Done [[lit "$key"]; []; [lit "pass"]]) /\
  parseRule (lit ":: pass") =
    Some (Done ([[]; []; [mkStmt 0 PASS [] []]], None)) /\
  (forall r buf result group,
     IsSpace r = false ->
     r <> COLON -> r <> QUOTE -> r <> SLASH ->
     scanGroups_from (r :: COLON :: buf) result group =
     scanGroups_from (snd (scanWord [r; COLON] buf)) result
       (group ++ [fst (scanWord [r; COLON] buf)])) /\
  (forall r w1 w2 sp rest result group,
     IsSpace r = false ->
     r <> COLON -> r <> QUOTE -> r <> SLASH ->
     Forall (fun c => IsSpace c = false) w1 ->
     Forall (fun c => IsSpace c = false) w2 ->
     IsSpace sp = true ->
     scanGroups_from (r :: w1 ++ COLON :: w2 ++ sp :: rest) result group =
     scanGroups_from rest result (group ++ [r :: w1 ++ COLON :: w2])) /\
  (forall r w1 w2 result group,
     IsSpace r = false ->
     r <> COLON -> r <> QUOTE -> r <> SLASH ->
     Forall (fun c => IsSpace c = false) w1 ->
     Forall (fun c => IsSpace c = false) w2 ->
     scanGroups_from (r :: w1 ++ COLON :: w2) result group =
     Some (Done (result ++ [group ++ [r :: w1 ++ COLON :: w2]]))).
Proof.
  assert (Hscan : forall rest,
    scanGroups (COLON :: rest) = run_map (cons []) (scanGroups rest)).
  { intros rest. unfold scanGroups. rewrite scanGroups_from_colon.
    unfold scanGroups_from.
    apply (scanGroups_loop_prefix _ [[]] rest [] []). }
  assert (Hword : forall w1 w2,
    Forall (fun c => IsSpace c = false) w1 ->
    Forall (fun c => IsSpace c = false) w2 ->
    Forall (fun c => IsSpace c = false) (w1 ++ COLON :: w2)).
  { intros w1 w2 H1 H2. apply Forall_app. split; [assumption|].
    constructor; [reflexivity | assumption]. }
  split; [exact scanGroups_from_colon|].
  split; [exact scanGroups_from_nil|].
  split; [exact Hscan|].
  split; [|split; [reflexivity|split; [reflexivity|split; [|split]]]].
  - intros rest. unfold parseRule. rewrite Hscan.
    destruct (scanGroups rest) as [[groups|m]|]; try reflexivity.
    simpl. f_equal. f_equal.
    apply (parseRule_loop_prefix groups [[]] []).
  - intros r buf result group Hs Hc Hq Hl.
    rewrite scanGroups_from_word by assumption. reflexivity.
  - intros r w1 w2 sp rest result group Hs Hc Hq Hl H1 H2 Hsp.
    rewrite scanGroups_from_word by assumption.
    replace (w1 ++ COLON :: w2 ++ sp :: rest)
      with ((w1 ++ COLON :: w2) ++ sp :: rest)
      by (rewrite <- app_assoc; reflexivity).
    rewrite scanWord_word by (try apply Hword; assumption). reflexivity.
  - intros r w1 w2 result group Hs Hc Hq Hl H1 H2.
    rewrite scanGroups_from_word by assumption.
    rewrite scanWord_end by (apply Hword; assumption). cbn [fst snd].
    apply scanGroups_from_nil_snoc.
Qed.

Lemma scanGroups_colon_flushes_witness :
  scanGroups_from (lit "$depth:block pass") [] [] =
  scanGroups_from (lit "pass") [] [lit "$depth:block"].
Proof.
  refine (proj1 (proj2 (proj2 (proj2 (proj2 (proj2 (proj2 (proj2
            scanGroups_colon_flushes)))))))
            DOLLAR (lit "depth") (lit "block") 32 (lit "pass") [] []
            _ _ _ _ _ _ _);
    try reflexivity; try discriminate; repeat constructor.
Defined.

(** C9 as stated fails: the colon of [pass:block] is outside any literal
    and closes no group. *)
Lemma scanGroups_colon_in_word :
  scanGroups (lit "pass:block") = Some (Done [[lit "pass:block"]]).
Proof. reflexivity. Qed.

(** The parser and the model builder return or end the process: no run
    is cut short by the budget of the tokenizer. *)
Lemma parseRule_returns (rule : gostring) : parseRule rule <> None.
Proof.
  unfold parseRule. pose proof (scanGroups_returns rule) as Hs.
  destruct (scanGroups rule) as [[groups|m]|]; congruence.
Qed.

Lemma makeSentinels_rules_returns (vals : list gostring) :
  forall rules, makeSentinels_rules vals rules <> None.
Proof.
  induction vals as [|val vals IH]; intros rules; simpl; [discriminate|].
  pose proof (parseRule_returns val) as Hp.
  destruct (parseRule val) as [[[rule [err|]]|m]|];
    try discriminate; [apply IH | congruence].
Qed.

Lemma makeSentinels_returns (endpoints : list Endpoint) :
  makeSentinels endpoints <> None.
Proof.
  unfold makeSentinels. generalize (@nil Sentinel) as result.
  induction endpoints as [|e endpoints IH]; intros result; simpl;
    [discriminate|].
  pose proof (makeSentinels_rules_returns (ep_Rules e) []) as Hr.
  destruct (makeSentinels_rules (ep_Rules e) []) as [[[rules [err|]]|m]|];
    try discriminate; [apply IH | congruence].
Qed.

Lemma main_returns (i : Input) (output : gostring) (d : Disk) :
  main i output d <> None.
Proof.
  unfold main. destruct (readEndpoints i) as [epts [err|]]; [discriminate|].
  pose proof (makeSentinels_returns epts) as Hm.
  destruct (makeSentinels epts) as [[[snts [err|]]|m]|];
    try discriminate; [|congruence].
  destruct (writeSentinels output snts d) as [d' [err|]]; discriminate.
Qed.

(** The rules of the README compile as it describes them. *)
Example README_rule :
  parseRule (lit "$ctx == 'json_obj' $key == 'role' $val == 'admin' : block") =
  Some (Done ([[mkStmt CTX EQ (lit "json_obj") [];
                mkStmt KEY EQ (lit "role") [];
                mkStmt VAL EQ (lit "admin") []];
               [mkStmt 0 BLOCK [] []]], None)).
Proof. reflexivity. Qed.

Example README_bare_pass :
  parseRule (lit "pass") = Some (Done ([[mkStmt 0 PASS [] []]], None)).
Proof. reflexivity. Qed.

Example README_regex :
  parseRule (lit "$ctx == 'headers|cookie' $key == 'token' $val == /^dev_/ : block") =
  Some (Done ([[mkStmt CTX EQ (lit "headers|cookie") [];
                mkStmt KEY EQ (lit "token") [];
                mkStmt VAL EQ [] (lit "/^dev_/")];
               [mkStmt 0 BLOCK [] []]], None)).
Proof. reflexivity. Qed.

Example unterminated_literal :
  parseRule (lit "$val == 'admin : block") = Some (Fatal "invalid string").
Proof. reflexivity. Qed.

Example unknown_operator :
  parseRule (lit "$val = 'admin'") =
  Some (Done ([], Some (UnknownOperator (lit "=")))).
Proof. reflexivity. Qed.

(** The escaping example of the README.  Once the JSON decoder has taken
    one level of backslashes away, the literal of the rule holds two
    backslashes before each of its double quotes (rune 34); the value
    compiled holds one, as the README says. *)
Example README_escaping :
  parseRule (lit "$val == '\\" ++ [34] ++ lit "quote\\" ++ [34] ++ lit "'") =
  Some (Done ([[mkStmt VAL EQ
                 (lit "\" ++ [34] ++ lit "quote\" ++ [34]) []]], None)).
Proof. reflexivity. Qed.

(** ** Integers on the wire *)

Lemma le_mod (n : nat) (v : Z) : le n (v mod 256 ^ Z.of_nat n) = le n v.
Proof.
  revert v; induction n as [|n IH]; intros v; [reflexivity|].
  rewrite Nat2Z.inj_succ, Z.pow_succ_r by lia.
  assert (Hpos : 0 < 256 ^ Z.of_nat n) by (apply Z.pow_pos_nonneg; lia).
  cbn [le]. rewrite Z.rem_mul_r by lia.
  f_equal.
  - rewrite (Z.mul_comm 256), Z.mod_add by lia. apply Z.mod_mod; lia.
  - rewrite (Z.mul_comm 256), Z.div_add by lia.
    rewrite (Z.div_small (v mod 256)) by (apply Z.mod_pos_bound; lia).
    rewrite Z.add_0_l. apply IH.
Qed.

Lemma le_decode_le (n : nat) (v : Z) :
  le_decode (le n v) = v mod 256 ^ Z.of_nat n.
Proof.
  revert v; induction n as [|n IH]; intros v.
  - simpl. rewrite Z.mod_1_r. reflexivity.
  - rewrite Nat2Z.inj_succ, Z.pow_succ_r by lia.
    assert (Hpos : 0 < 256 ^ Z.of_nat n) by (apply Z.pow_pos_nonneg; lia).
    cbn [le le_decode]. rewrite IH, Z.rem_mul_r by lia. reflexivity.
Qed.

Lemma le_length (n : nat) (v : Z) : length (le n v) = n.
Proof. revert v; induction n; intros; simpl; auto. Qed.

Lemma le8_uint64 (v : Z) : le 8 (uint64 v) = le 8 v.
Proof. apply (le_mod 8 v). Qed.

Lemma le2_uint16 (v : Z) : le 2 (uint16 v) = Wire.u16 v.
Proof. reflexivity. Qed.

Lemma uint64_idem_add (a b : Z) : uint64 (uint64 a + b) = uint64 (a + b).
Proof. unfold uint64. apply Zplus_mod_idemp_l. Qed.

Lemma uint64_small (a : Z) : 0 <= a < 2 ^ 64 -> uint64 a = a.
Proof. intros Ha. apply Z.mod_small, Ha. Qed.

Lemma uint64_range (a : Z) : 0 <= uint64 a < 2 ^ 64.
Proof. apply Z.mod_pos_bound. lia. Qed.

(** ** The two sinks are lawful *)

Lemma NopWriter_Write_valid (w : NopWriter) (bs : list byte) :
  0 <= fst (Write w bs) < 2 ^ 64.
Proof. apply uint64_range. Qed.

Lemma NopWriter_Write_nil (w : NopWriter) :
  0 <= w < 2 ^ 64 -> Write w [] = (w, None).
Proof.
  intros Hw. unfold Write, NopWriter_Writer. f_equal.
  rewrite Z.add_0_r. apply uint64_small, Hw.
Qed.

Lemma NopWriter_Write_app (w : NopWriter) (a b : list byte) :
  Write w (a ++ b) = ((fun w => Write w a) ;; (fun w => Write w b)) w.
Proof.
  unfold andThen, Write, NopWriter_Writer. f_equal.
  rewrite uint64_idem_add, len_app. f_equal. lia.
Qed.

#[export] Instance NopWriter_Lawful : Lawful NopWriter.
Proof.
  split.
  - intros w bs _. apply NopWriter_Write_valid.
  - exact NopWriter_Write_nil.
  - intros w a b _. apply NopWriter_Write_app.
Qed.

Lemma File_Write_nil (w : File) : Write w [] = (w, None).
Proof.
  destruct w as [dt [n|]]; unfold Write, File_Writer; simpl.
  - rewrite N.sub_0_r, app_nil_r.
    rewrite (proj2 (N.leb_le 0 n)) by lia. reflexivity.
  - rewrite app_nil_r. reflexivity.
Qed.

Lemma File_Write_app (w : File) (a b : list byte) :
  Write w (a ++ b) = ((fun w => Write w a) ;; (fun w => Write w b)) w.
Proof.
  destruct w as [dt [n|]]; unfold andThen, Write, File_Writer; simpl.
  - rewrite length_app.
    destruct (N.leb_spec (N.of_nat (length a)) n) as [Ha|Ha]; simpl.
    + destruct (N.leb_spec (N.of_nat (length b))
                  (n - N.of_nat (length a))) as [Hb|Hb].
      * rewrite (proj2 (N.leb_le _ _)) by lia.
        rewrite Nat2N.inj_add, N.sub_add_distr, app_assoc. reflexivity.
      * rewrite (proj2 (N.leb_gt _ _)) by lia.
        rewrite firstn_app, <- app_assoc.
        rewrite (firstn_all2 a) by lia.
        replace (N.to_nat n - length a)%nat
          with (N.to_nat (n - N.of_nat (length a))) by lia.
        reflexivity.
    + rewrite (proj2 (N.leb_gt _ _)) by lia.
      rewrite firstn_app.
      replace (N.to_nat n - length a)%nat with 0%nat by lia.
      simpl. rewrite app_nil_r. reflexivity.
  - rewrite app_assoc. reflexivity.
Qed.

#[export] Instance File_Lawful : Lawful File.
Proof.
  split.
  - intros; exact I.
  - intros w _. apply File_Write_nil.
  - intros w a b _. apply File_Write_app.
Qed.

(** ** Routines over a lawful sink *)

Section Sinks.
Context {W : Type} `{Lawful W}.

Lemma writes_Write (bs : list byte) : writes (fun w => Write w bs) bs.
Proof. intros w _. reflexivity. Qed.

Lemma writes_ret : writes (ret None) [].
Proof. intros w Hw. symmetry. apply Write_nil, Hw. Qed.

Lemma writes_andThen (m k : action W) (a b : list byte) :
  writes m a -> writes k b -> writes (m ;; k) (a ++ b).
Proof.
  intros Hm Hk w Hw. rewrite Write_app by assumption.
  unfold andThen. rewrite Hm by assumption.
  pose proof (Write_valid w a Hw) as Hv.
  destruct (Write w a) as [w' [e|]]; [reflexivity|].
  apply Hk, Hv.
Qed.

Lemma writes_each {A : Type} (f : A -> action W) (g : A -> list byte)
  (xs : list A) :
  (forall x, In x xs -> writes (f x) (g x)) ->
  writes (each f xs) (flat_map g xs).
Proof.
  induction xs as [|x xs IH]; intros Hf; simpl.
  - apply writes_ret.
  - apply writes_andThen.
    + apply Hf. left; reflexivity.
    + apply IH. intros y Hy. apply Hf. right; assumption.
Qed.

Lemma fails_ret (e : error) : fails (ret (Some e)) e.
Proof.
  intros w Hw. exists []. unfold feed, andThen.
  rewrite Write_nil by assumption. reflexivity.
Qed.

Lemma fails_andThen_l (m k : action W) (e : error) :
  fails m e -> fails (m ;; k) e.
Proof.
  intros Hm w Hw. destruct (Hm w Hw) as [bs Hbs]. exists bs.
  unfold andThen. rewrite Hbs. unfold feed, andThen, ret.
  destruct (Write w bs) as [w' [e'|]]; reflexivity.
Qed.

Lemma fails_andThen_r (m k : action W) (a : list byte) (e : error) :
  writes m a -> fails k e -> fails (m ;; k) e.
Proof.
  intros Hm Hk w Hw. unfold andThen at 1. rewrite Hm by assumption.
  pose proof (Write_valid w a Hw) as Hv.
  destruct (Write w a) as [w' [e'|]] eqn:Ea.
  - exists a. unfold feed, andThen. rewrite Ea. reflexivity.
  - destruct (Hk w' Hv) as [bs Hbs]. exists (a ++ bs).
    rewrite Hbs. unfold feed, andThen.
    rewrite Write_app by assumption. unfold andThen. rewrite Ea.
    reflexivity.
Qed.

Lemma fails_each {A : Type} (f : A -> action W) (g : A -> list byte)
  (chk : A -> option error) (xs : list A) (e : error) :
  (forall x, In x xs -> chk x = None -> writes (f x) (g x)) ->
  (forall x err, In x xs -> chk x = Some err -> fails (f x) err) ->
  first_error chk xs = Some e ->
  fails (each f xs) e.
Proof.
  induction xs as [|x xs IH]; intros Hw Hf He; simpl in *; [discriminate|].
  destruct (chk x) as [err|] eqn:Ex.
  - injection He as ->. apply fails_andThen_l. apply (Hf x); auto.
  - apply fails_andThen_r with (a := g x).
    + apply Hw; auto.
    + apply IH; auto.
Qed.

Lemma first_error_None {A : Type} (chk : A -> option error) (xs : list A) :
  first_error chk xs = None -> forall x, In x xs -> chk x = None.
Proof.
  induction xs as [|y xs IH]; simpl; intros Hn x Hx; [contradiction|].
  destruct (chk y) eqn:Ey; [discriminate|].
  destruct Hx as [<-|Hx]; auto.
Qed.

Lemma writeStr_writes (val : gostring) : writes (writeStr val) (Wire.str val).
Proof.
  unfold writeStr, Wire.str. apply writes_andThen; apply writes_Write.
Qed.

End Sinks.

(** ** Context codes and masks *)

(** [getCtxCode] is the table of context codes. *)
Lemma getCtxCode_code (name : gostring) :
  getCtxCode name =
  match Wire.context_code name with
  | Some n => (n, None)
  | None => (0, Some (UnknownContext name))
  end.
Proof.
  unfold getCtxCode, Wire.context_code, Wire.context_codes, Wire.lookup.
  repeat match goal with
  | |- context [eqs name ?l] =>
      let E := fresh "E" in
      destruct (eqs name l) eqn:E;
      [apply eqs_eq in E; subst name; reflexivity|]
  end.
  reflexivity.
Qed.

Lemma context_code_range (name : gostring) (n : Z) :
  Wire.context_code name = Some n -> 1 <= n <= 12.
Proof.
  unfold Wire.context_code, Wire.context_codes, Wire.lookup.
  repeat match goal with
  | |- context [eqs name ?l] => destruct (eqs name l)
  end; intros E; inversion E; lia.
Qed.

Lemma unknown_ctx_iff (name : gostring) :
  unknown_ctx name <-> Wire.context_code name = None.
Proof.
  unfold unknown_ctx. rewrite getCtxCode_code.
  destruct (Wire.context_code name); simpl; split; congruence.
Qed.

Lemma lor_range (a b : Z) :
  0 <= a < 2 ^ 64 -> 0 <= b < 2 ^ 64 -> 0 <= Z.lor a b < 2 ^ 64.
Proof.
  intros Ha Hb.
  assert (H0 : 0 <= Z.lor a b) by (apply Z.lor_nonneg; lia).
  split; [assumption|].
  destruct (Z.eq_dec (Z.lor a b) 0) as [->|Hne]; [lia|].
  apply Z.log2_lt_pow2; [lia|].
  rewrite Z.log2_lor by lia.
  assert (La : Z.log2 a < 64).
  { destruct (Z.eq_dec a 0) as [->|]; [simpl; lia|].
    apply Z.log2_lt_pow2; lia. }
  assert (Lb : Z.log2 b < 64).
  { destruct (Z.eq_dec b 0) as [->|]; [simpl; lia|].
    apply Z.log2_lt_pow2; lia. }
  lia.
Qed.

Lemma code_bit_range (c : option Z) :
  (forall n, c = Some n -> 1 <= n <= 12) ->
  0 <= match c with Some n => Z.shiftl 1 n | None => 0 end < 2 ^ 64.
Proof.
  intros Hc. destruct c as [n|]; [|lia].
  specialize (Hc n eq_refl). rewrite Z.shiftl_1_l.
  split; [apply Z.pow_nonneg; lia|].
  apply Z.pow_lt_mono_r; lia.
Qed.

Lemma mask_range (names : list gostring) : 0 <= Wire.mask names < 2 ^ 64.
Proof.
  induction names as [|name names IH]; simpl; [lia|].
  apply lor_range; [|assumption].
  apply code_bit_range. intros n. apply context_code_range.
Qed.

(** With every name known, the loop of [writeCtx] ends with the mask. *)
Lemma writeCtx_loop_known (contexts : list gostring) :
  forall r,
    0 <= r < 2 ^ 64 ->
    Forall (fun c => Wire.context_code (TrimSpace c) <> None) contexts ->
    writeCtx_loop contexts r =
    (Z.lor r (Wire.mask (map TrimSpace contexts)), None).
Proof.
  induction contexts as [|c contexts IH]; intros r Hr Hk; simpl.
  - rewrite Z.lor_0_r. reflexivity.
  - inversion Hk as [|? ? Hc Hk']; subst.
    rewrite getCtxCode_code.
    destruct (Wire.context_code (TrimSpace c)) as [n|] eqn:E;
      [|congruence].
    assert (Hbit : 0 <= Z.shiftl 1 n < 2 ^ 64).
    { apply (code_bit_range (Some n)). intros m [= <-].
      apply (context_code_range _ _ E). }
    rewrite uint64_small by (apply lor_range; assumption).
    rewrite IH by (try apply lor_range; assumption).
    rewrite Z.lor_assoc. reflexivity.
Qed.

(** With a name unknown, it ends with the error that names the first. *)
Lemma writeCtx_loop_unknown (contexts : list gostring) :
  forall r,
    Exists (fun c => Wire.context_code (TrimSpace c) = None) contexts ->
    exists name,
      In name (map TrimSpace contexts) /\
      Wire.context_code name = None /\
      snd (writeCtx_loop contexts r) = Some (UnknownContext name).
Proof.
  induction contexts as [|c contexts IH]; intros r Hex.
  - inversion Hex.
  - simpl. rewrite getCtxCode_code.
    destruct (Wire.context_code (TrimSpace c)) as [n|] eqn:E.
    + inversion Hex as [? ? Hc|? ? Hex']; subst; [congruence|].
      destruct (IH (uint64 (Z.lor r (Z.shiftl 1 n))) Hex')
        as (name & Hin & Hun & Hs).
      exists name. auto.
    + exists (TrimSpace c). auto.
Qed.

Lemma known_or_unknown (contexts : list gostring) :
  Forall (fun c => Wire.context_code (TrimSpace c) <> None) contexts \/
  Exists (fun c => Wire.context_code (TrimSpace c) = None) contexts.
Proof.
  induction contexts as [|c contexts [IH|IH]].
  - left; constructor.
  - destruct (Wire.context_code (TrimSpace c)) eqn:E.
    + left; constructor; [congruence | assumption].
    + right; left; assumption.
  - right; right; assumption.
Qed.

Lemma writeCtx_loop_ok (contexts : list gostring) :
  snd (writeCtx_loop contexts 0) = None ->
  writeCtx_loop contexts 0 = (Wire.mask (map TrimSpace contexts), None).
Proof.
  intros Hn. destruct (known_or_unknown contexts) as [Hk|Hu].
  - rewrite writeCtx_loop_known by (assumption || lia).
    rewrite Z.lor_0_l. reflexivity.
  - destruct (writeCtx_loop_unknown contexts 0 Hu) as (name & _ & _ & Hs).
    congruence.
Qed.

(** The bits of a mask are the codes of its names. *)
Lemma mask_testbit (names : list gostring) (i : Z) :
  0 <= i ->
  Z.testbit (Wire.mask names) i =
  existsb (fun name => match Wire.context_code name with
                       | Some n => n =? i
                       | None => false
                       end) names.
Proof.
  intros Hi. induction names as [|name names IH]; simpl.
  - apply Z.bits_0.
  - rewrite Z.lor_spec, IH. f_equal.
    destruct (Wire.context_code name) as [n|] eqn:E; [|apply Z.bits_0].
    apply context_code_range in E.
    rewrite Z.shiftl_1_l. apply Z.pow2_bits_eqb. lia.
Qed.

(** The mask depends on the set of names only: neither the order of the
    names nor their repetition changes it. *)
Lemma mask_set (names1 names2 : list gostring) :
  (forall name, In name names1 <-> In name names2) ->
  Wire.mask names1 = Wire.mask names2.
Proof.
  intros Hset. apply Z.bits_inj'. intros i Hi.
  rewrite !mask_testbit by assumption.
  apply eq_true_iff_eq. rewrite !existsb_exists.
  split; intros (name & Hin & Hc); exists name; split;
    try assumption; apply Hset; assumption.
Qed.

(** ** The encoder writes the wire format *)

Section Layout.
Context {W : Type} `{Lawful W}.

Lemma writeCtx_writes (val : gostring) :
  snd (writeCtx_loop (Split val BAR) 0) = None ->
  writes (writeCtx val) (le 8 (Wire.mask (ctx_names val))).
Proof.
  intros Hn w _. unfold writeCtx.
  rewrite (writeCtx_loop_ok _ Hn). reflexivity.
Qed.

Lemma writeCtx_fails (val : gostring) (e : error) :
  snd (writeCtx_loop (Split val BAR) 0) = Some e ->
  fails (writeCtx val) e.
Proof.
  intros He w Hw. exists []. unfold writeCtx, feed, andThen, ret.
  rewrite Write_nil by assumption.
  destruct (writeCtx_loop (Split val BAR) 0) as [r [err|]]; simpl in He;
    congruence.
Qed.

Lemma writeSentinel_stmt_writes (stmt : Stmt) :
  ctx_error stmt = None ->
  writes (writeSentinel_stmt stmt) (Wire.statement stmt).
Proof.
  intros Hn. unfold writeSentinel_stmt, Wire.statement, Wire.value,
    ctx_error in *.
  apply writes_andThen; [apply writes_Write|].
  apply writes_andThen; [apply writes_Write|].
  change (Var stmt =? 1) with (Var stmt =? CTX).
  destruct (Var stmt =? CTX).
  - apply (writes_andThen _ _ [1]); [apply writes_Write|].
    apply writeCtx_writes, Hn.
  - destruct (strlen (Regexp stmt) =? 0); simpl negb; cbv iota.
    + apply (writes_andThen _ _ [2]);
        [apply writes_Write | apply writeStr_writes].
    + apply (writes_andThen _ _ [3]);
        [apply writes_Write | apply writeStr_writes].
Qed.

Lemma writeSentinel_stmt_fails (stmt : Stmt) (e : error) :
  ctx_error stmt = Some e ->
  fails (writeSentinel_stmt stmt) e.
Proof.
  intros He. unfold writeSentinel_stmt, ctx_error in *.
  eapply fails_andThen_r; [apply writes_Write|].
  eapply fails_andThen_r; [apply writes_Write|].
  destruct (Var stmt =? CTX); [|discriminate].
  eapply fails_andThen_r; [apply writes_Write|].
  apply writeCtx_fails, He.
Qed.

Lemma writeSentinel_stmts_writes (stmts : list Stmt) :
  first_error ctx_error stmts = None ->
  writes (writeSentinel_stmts stmts) (Wire.clause stmts).
Proof.
  intros Hn. unfold writeSentinel_stmts, Wire.clause.
  apply writes_andThen; [apply writes_Write|].
  apply writes_each. intros stmt Hin.
  apply writeSentinel_stmt_writes, (first_error_None _ _ Hn _ Hin).
Qed.

Lemma writeSentinel_stmts_fails (stmts : list Stmt) (e : error) :
  first_error ctx_error stmts = Some e ->
  fails (writeSentinel_stmts stmts) e.
Proof.
  intros He. unfold writeSentinel_stmts.
  eapply fails_andThen_r; [apply writes_Write|].
  apply (fails_each _ Wire.statement ctx_error); [| |assumption].
  - intros; apply writeSentinel_stmt_writes; assumption.
  - intros; apply writeSentinel_stmt_fails; assumption.
Qed.

Lemma writeSentinel_groups_writes (groups : list (list Stmt)) :
  first_error (first_error ctx_error) groups = None ->
  writes (writeSentinel_groups groups) (Wire.rule groups).
Proof.
  intros Hn. unfold writeSentinel_groups, Wire.rule.
  apply writes_andThen; [apply writes_Write|].
  apply writes_each. intros stmts Hin.
  apply writeSentinel_stmts_writes, (first_error_None _ _ Hn _ Hin).
Qed.

Lemma writeSentinel_groups_fails (groups : list (list Stmt)) (e : error) :
  first_error (first_error ctx_error) groups = Some e ->
  fails (writeSentinel_groups groups) e.
Proof.
  intros He. unfold writeSentinel_groups.
  eapply fails_andThen_r; [apply writes_Write|].
  apply (fails_each _ Wire.clause (first_error ctx_error)); [| |assumption].
  - intros; apply writeSentinel_stmts_writes; assumption.
  - intros; apply writeSentinel_stmts_fails; assumption.
Qed.

(** A sentinel whose contexts are all known is written as the wire format
    has it. *)
Lemma writeSentinel_writes (snt : Sentinel) :
  sentinel_error snt = None ->
  writes (writeSentinel snt) (Wire.sentinel snt).
Proof.
  intros Hn. unfold writeSentinel, Wire.sentinel.
  apply writes_andThen; [apply writeStr_writes|].
  apply writes_andThen; [apply writes_Write|].
  apply writes_andThen;
    [apply writes_each; intros; apply writeStr_writes|].
  apply writes_andThen; [apply writes_Write|].
  apply writes_each. intros groups Hin.
  apply writeSentinel_groups_writes, (first_error_None _ _ Hn _ Hin).
Qed.

(** A sentinel with an unknown context makes [writeSentinel] return the
    error of the first. *)
Lemma writeSentinel_fails (snt : Sentinel) (e : error) :
  sentinel_error snt = Some e ->
  fails (writeSentinel snt) e.
Proof.
  intros He. unfold writeSentinel.
  eapply fails_andThen_r; [apply writeStr_writes|].
  eapply fails_andThen_r; [apply writes_Write|].
  eapply fails_andThen_r;
    [apply (writes_each _ Wire.str); intros; apply writeStr_writes|].
  eapply fails_andThen_r; [apply writes_Write|].
  apply (fails_each _ Wire.rule (first_error (first_error ctx_error)));
    [| |assumption].
  - intros; apply writeSentinel_groups_writes; assumption.
  - intros; apply writeSentinel_groups_fails; assumption.
Qed.

End Layout.

(** ** Context statements *)

Lemma known_names (val : gostring) :
  Forall (fun name => ~ unknown_ctx name) (ctx_names val) ->
  Forall (fun c => Wire.context_code (TrimSpace c) <> None) (Split val BAR).
Proof.
  unfold ctx_names. rewrite Forall_map. apply Forall_impl.
  intros c Hc E. apply Hc, unknown_ctx_iff, E.
Qed.

Lemma known_ctx_error (stmt : Stmt) :
  Forall (fun name => ~ unknown_ctx name) (ctx_names (Val stmt)) ->
  ctx_error stmt = None.
Proof.
  intros Hk. unfold ctx_error. destruct (Var stmt =? CTX); [|reflexivity].
  rewrite writeCtx_loop_known by (try apply known_names; assumption || lia).
  reflexivity.
Qed.

Lemma unknown_names (val : gostring) :
  Exists unknown_ctx (ctx_names val) ->
  exists name,
    In name (ctx_names val) /\ unknown_ctx name /\
    snd (writeCtx_loop (Split val BAR) 0) = Some (UnknownContext name).
Proof.
  intros Hex.
  destruct (writeCtx_loop_unknown (Split val BAR) 0) as (name & Hin & Hu & Hs).
  - unfold ctx_names in Hex. rewrite Exists_map in Hex.
    revert Hex. apply Exists_impl. intros c. apply unknown_ctx_iff.
  - exists name. rewrite unknown_ctx_iff. auto.
Qed.

(** C5: a statement on [$ctx] is written as its field code, its operator,
    the tag NUMERIC and 8 bytes: the bitwise OR of [1 << code] over the
    names between the bars of its value, each trimmed of white space.  The
    bits set are the codes of the names, so the payload depends neither on
    their order nor on their repetition; [json_obj|json_array] and
    [json_array|json_obj] both give [(1<<6)|(1<<7)].  With a name unknown,
    [writeCtx] writes nothing and returns the error naming the first unknown
    name. *)
Theorem writeCtx_mask :
  (forall (W : Type) (HW : Writer W) (HV : Valid W) (HL : Lawful W)
     (w : W) (stmt : Stmt),
     valid w ->
     Var stmt = CTX ->
     Forall (fun name => ~ unknown_ctx name) (ctx_names (Val stmt)) ->
     writeSentinel_stmt stmt w =
     Write w ([CTX; Op stmt mod 256; NUMERIC] ++
              le 8 (Wire.mask (ctx_names (Val stmt))))) /\
  (forall names i,
     0 <= i ->
     (Z.testbit (Wire.mask names) i = true <->
      exists name, In name names /\ getCtxCode name = (i, None))) /\
  (forall (W : Type) (HW : Writer W) (w : W) (val1 val2 : gostring),
     (forall name, In name (ctx_names val1) <-> In name (ctx_names val2)) ->
     Forall (fun name => ~ unknown_ctx name) (ctx_names val1) ->
     writeCtx val1 w = writeCtx val2 w) /\
  (writeCtx (lit "json_obj|json_array") (mkFile [] None) =
     (mkFile (le 8 (Z.lor (Z.shiftl 1 6) (Z.shiftl 1 7))) None, None) /\
   writeCtx (lit "json_array|json_obj") (mkFile [] None) =
     (mkFile (le 8 (Z.lor (Z.shiftl 1 6) (Z.shiftl 1 7))) None, None)) /\
  (forall (W : Type) (HW : Writer W) (w : W) (val : gostring),
     Exists unknown_ctx (ctx_names val) ->
     exists name,
       In name (ctx_names val) /\ unknown_ctx name /\
       writeCtx val w = (w, Some (UnknownContext name))).
Proof.
  split; [|split; [|split; [|split]]].
  - intros W HW HV HL w stmt Hw Hv Hk.
    rewrite (writeSentinel_stmt_writes stmt (known_ctx_error stmt Hk) w Hw).
    unfold Wire.statement, Wire.value. rewrite Hv. reflexivity.
  - intros names i Hi. rewrite mask_testbit by assumption.
    rewrite existsb_exists. split; intros (name & Hin & Hc); exists name;
      (split; [assumption|]).
    + rewrite getCtxCode_code.
      destruct (Wire.context_code name) as [n|]; [|discriminate].
      apply Z.eqb_eq in Hc. subst; reflexivity.
    + rewrite getCtxCode_code in Hc.
      destruct (Wire.context_code name) as [n|]; [|discriminate].
      injection Hc as ->. apply Z.eqb_refl.
  - intros W HW w val1 val2 Hset Hk1.
    assert (Hk2 : Forall (fun name => ~ unknown_ctx name) (ctx_names val2)).
    { rewrite Forall_forall in *. intros name Hin. apply Hk1, Hset, Hin. }
    unfold writeCtx.
    rewrite !writeCtx_loop_known by (try apply known_names; assumption || lia).
    fold (ctx_names val1) (ctx_names val2).
    rewrite (mask_set _ _ Hset). reflexivity.
  - split; reflexivity.
  - intros W HW w val Hex.
    destruct (unknown_names val Hex) as (name & Hin & Hu & Hs).
    exists name. split; [assumption|]. split; [assumption|].
    unfold writeCtx.
    destruct (writeCtx_loop (Split val BAR) 0) as [r [err|]]; simpl in Hs;
      congruence.
Qed.

Lemma writeCtx_mask_witness :
  writeSentinel_stmt (mkStmt CTX EQ (lit "json_obj | json_array") [])
    (mkFile [] None) =
  Write (mkFile [] None)
    ([CTX; EQ mod 256; NUMERIC] ++
     le 8 (Wire.mask (ctx_names (lit "json_obj | json_array")))).
Proof.
  refine (proj1 writeCtx_mask File _ _ _ (mkFile [] None)
            (mkStmt CTX EQ (lit "json_obj | json_array") []) I eq_refl _).
  repeat constructor; intros Hu; apply Hu; reflexivity.
Defined.

(** ** The counting pass *)

Lemma writeSentinel_count (snt : Sentinel) (w : NopWriter) :
  valid w ->
  sentinel_error snt = None ->
  writeSentinel snt w = (uint64 (w + len (Wire.sentinel snt)), None).
Proof.
  intros Hw Hn. rewrite (writeSentinel_writes snt Hn w Hw). reflexivity.
Qed.

Lemma writeSentinel_count_fails (snt : Sentinel) (w : NopWriter) (e : error) :
  valid w ->
  sentinel_error snt = Some e ->
  snd (writeSentinel snt w) = Some e.
Proof.
  intros Hw He. destruct (writeSentinel_fails snt e He w Hw) as [bs ->].
  reflexivity.
Qed.

Lemma offsets_length (snts : list Sentinel) (start : Z) :
  length (Wire.offsets start snts) = length snts.
Proof.
  revert start; induction snts as [|snt snts IH]; intros start; simpl;
    [reflexivity|]. rewrite IH; reflexivity.
Qed.

Lemma offsets_uint64 (snts : list Sentinel) (start : Z) :
  map uint64 (Wire.offsets (uint64 start) snts) =
  map uint64 (Wire.offsets start snts).
Proof.
  revert start; induction snts as [|snt snts IH]; intros start; simpl;
    [reflexivity|].
  f_equal.
  - unfold uint64. apply Z.mod_mod. lia.
  - rewrite <- IH, uint64_idem_add. apply IH.
Qed.

Lemma offsetTable_loop_ok (snts : list Sentinel) :
  forall (w : NopWriter) result,
    valid w ->
    sentinels_error snts = None ->
    offsetTable_loop snts w result =
    (result ++ map uint64 (Wire.offsets w snts), None).
Proof.
  induction snts as [|snt snts IH]; intros w result Hw Hn; simpl.
  - rewrite app_nil_r; reflexivity.
  - unfold sentinels_error in Hn. simpl in Hn.
    destruct (sentinel_error snt) eqn:Es; [discriminate|].
    rewrite (writeSentinel_count snt w Hw Es).
    rewrite IH by (try apply uint64_range; assumption).
    rewrite offsets_uint64, <- app_assoc. reflexivity.
Qed.

Lemma offsetTable_loop_fails (snts : list Sentinel) (e : error) :
  forall (w : NopWriter) result,
    valid w ->
    sentinels_error snts = Some e ->
    offsetTable_loop snts w result = ([], Some e).
Proof.
  induction snts as [|snt snts IH]; intros w result Hw He;
    unfold sentinels_error in He; simpl in *; [discriminate|].
  destruct (sentinel_error snt) as [e'|] eqn:Es.
  - injection He as ->.
    pose proof (writeSentinel_count_fails snt w e Hw Es) as Hs.
    destruct (writeSentinel snt w) as [w' [err|]]; simpl in Hs;
      congruence.
  - rewrite (writeSentinel_count snt w Hw Es).
    apply IH; [apply uint64_range | assumption].
Qed.

Lemma offsetTable_zeros_count (n : nat) :
  forall w : NopWriter,
    valid w -> offsetTable_zeros n w = uint64 (w + 8 * Z.of_nat n).
Proof.
  induction n as [|n IH]; intros w Hw.
  - simpl. rewrite Z.add_0_r. symmetry. apply uint64_small, Hw.
  - cbn [offsetTable_zeros]. rewrite IH by apply uint64_range.
    unfold Write, NopWriter_Writer, fst.
    rewrite uint64_idem_add.
    change (len (le 8 (uint64 0))) with 8. f_equal; lia.
Qed.

Lemma offsetTable_start (snts : list Sentinel) :
  offsetTable snts =
  offsetTable_loop snts (uint64 (4 + 2 + 8 * len snts + 2)) [].
Proof.
  unfold offsetTable. f_equal.
  rewrite offsetTable_zeros_count by apply uint64_range.
  unfold Write, NopWriter_Writer, fst.
  rewrite !uint64_idem_add.
  change (len (le 4 (uint32 0))) with 4.
  change (len (le 2 (uint16 (len snts)))) with 2.
  f_equal; lia.
Qed.

Lemma offsetTable_ok (snts : list Sentinel) :
  sentinels_error snts = None ->
  offsetTable snts =
  (map uint64 (Wire.offsets (4 + 2 + 8 * len snts + 2) snts), None).
Proof.
  intros Hn. rewrite offsetTable_start.
  rewrite offsetTable_loop_ok by (try apply uint64_range; assumption).
  rewrite offsets_uint64. reflexivity.
Qed.

Lemma offsetTable_fails (snts : list Sentinel) (e : error) :
  sentinels_error snts = Some e -> offsetTable snts = ([], Some e).
Proof.
  intros He. rewrite offsetTable_start.
  apply offsetTable_loop_fails; [apply uint64_range | assumption].
Qed.

(** ** The writing pass *)

Lemma flat_map_le8_uint64 (l : list Z) :
  flat_map (le 8) (map uint64 l) = flat_map (le 8) l.
Proof.
  induction l as [|x l IH]; [reflexivity|].
  cbn [map flat_map]. rewrite le8_uint64, IH. reflexivity.
Qed.

(** With every context known, the file takes the stream of the wire
    format. *)
Lemma writeSentinels_file_ok (snts : list Sentinel) :
  sentinels_error snts = None ->
  writes (writeSentinels_file snts) (Wire.stream snts).
Proof.
  intros Hn. unfold writeSentinels_file, Wire.stream.
  apply (writes_andThen _ _ (le 4 4)); [apply writes_Write|].
  intros w Hw. rewrite (offsetTable_ok snts Hn).
  revert w Hw. fold (writes (W := File)).
  apply writes_andThen.
  { unfold len. rewrite length_map, offsets_length. apply writes_Write. }
  rewrite <- flat_map_le8_uint64.
  apply writes_andThen; [apply writes_each; intros; apply writes_Write|].
  apply writes_andThen; [apply writes_Write|].
  apply writes_each. intros snt Hin.
  apply writeSentinel_writes, (first_error_None _ _ Hn _ Hin).
Qed.

(** With a context unknown, the file takes the version and no more. *)
Lemma writeSentinels_file_fails (snts : list Sentinel) (e : error) (w : File) :
  sentinels_error snts = Some e ->
  writeSentinels_file snts w = feed (le 4 4) (Some e) w.
Proof.
  intros He. unfold writeSentinels_file, feed, andThen.
  rewrite (offsetTable_fails snts e He). reflexivity.
Qed.

(** ** The destination file *)

Lemma File_Write_unlimited (dt bs : list byte) :
  Write (mkFile dt None) bs = (mkFile (dt ++ bs) None, None).
Proof. reflexivity. Qed.

Lemma File_Write_fits (dt bs : list byte) (n : N) :
  (N.of_nat (length bs) <= n)%N ->
  Write (mkFile dt (Some n)) bs =
  (mkFile (dt ++ bs) (Some (n - N.of_nat (length bs))%N), None).
Proof.
  intros Hn. unfold Write, File_Writer. simpl.
  rewrite (proj2 (N.leb_le _ _) Hn). reflexivity.
Qed.

Lemma File_Write_data (w w' : File) (bs : list byte) :
  Write w bs = (w', None) -> data w' = data w ++ bs.
Proof.
  destruct w as [dt [n|]]; unfold Write, File_Writer; simpl.
  - destruct (_ <=? _)%N; intros E; inversion E; reflexivity.
  - intros E; inversion E; reflexivity.
Qed.

Lemma commit_at (path : gostring) (w : File) (d : Disk) :
  commit path w d path = mkSlot false (room w) (Some (data w)).
Proof. unfold commit. rewrite eqs_refl. reflexivity. Qed.

Lemma commit_elsewhere (path p : gostring) (w : File) (d : Disk) :
  p <> path -> commit path w d p = d p.
Proof.
  intros Hp. unfold commit. destruct (eqs p path) eqn:E; [|reflexivity].
  apply eqs_eq in E. contradiction.
Qed.

Lemma record_wire (snt : Sentinel) :
  sentinel_error snt = None -> record snt = Wire.sentinel snt.
Proof.
  intros Hn. unfold record.
  rewrite (writeSentinel_writes snt Hn (mkFile [] None) I). reflexivity.
Qed.

Lemma flat_map_record_wire (snts : list Sentinel) :
  sentinels_error snts = None ->
  flat_map record snts = flat_map Wire.sentinel snts.
Proof.
  intros Hn. pose proof (first_error_None _ _ Hn) as Hall. clear Hn.
  induction snts as [|snt snts IH]; [reflexivity|].
  simpl. rewrite record_wire by (apply Hall; left; reflexivity).
  rewrite IH; [reflexivity|]. intros x Hx. apply Hall. right; assumption.
Qed.

(** What a run of [writeSentinels] without error has done. *)
Lemma writeSentinels_done (path : gostring) (snts : list Sentinel)
  (d d' : Disk) :
  writeSentinels path snts d = (d', None) ->
  sentinels_error snts = None /\
  stored (d' path) = Some (Wire.stream snts).
Proof.
  unfold writeSentinels, OpenFile.
  destruct (refused (d path)); [discriminate|].
  destruct (sentinels_error snts) as [e|] eqn:Es.
  - rewrite (writeSentinels_file_fails snts e _ Es).
    unfold feed, andThen, ret.
    destruct (Write _ _) as [w' [e'|]]; discriminate.
  - rewrite (writeSentinels_file_ok snts Es _ I).
    destruct (Write _ _) as [w' [e'|]] eqn:Ew; intros E; inversion E.
    split; [reflexivity|]. rewrite commit_at. simpl.
    apply File_Write_data in Ew. rewrite Ew. reflexivity.
Qed.

(** On a destination that can be opened and takes the stream, the run
    succeeds. *)
Lemma writeSentinels_runs (path : gostring) (snts : list Sentinel) (d : Disk) :
  refused (d path) = false ->
  match space (d path) with
  | None => True
  | Some n => (N.of_nat (length (Wire.stream snts)) <= n)%N
  end ->
  sentinels_error snts = None ->
  exists d',
    writeSentinels path snts d = (d', None) /\
    stored (d' path) = Some (Wire.stream snts) /\
    forall p, p <> path -> d' p = d p.
Proof.
  intros Hr Hs Hn. unfold writeSentinels, OpenFile. rewrite Hr.
  rewrite (writeSentinels_file_ok snts Hn _ I).
  destruct (space (d path)) as [n|].
  - rewrite File_Write_fits by assumption.
    eexists; split; [reflexivity|]. rewrite commit_at. split; [reflexivity|].
    intros p Hp. apply commit_elsewhere, Hp.
  - rewrite File_Write_unlimited.
    eexists; split; [reflexivity|]. rewrite commit_at. split; [reflexivity|].
    intros p Hp. apply commit_elsewhere, Hp.
Qed.

(** ** Fields of the stream *)

Lemma field_at (a c : list byte) (n : nat) (v : Z) :
  field (a ++ le n v ++ c) (len a) n = v mod 256 ^ Z.of_nat n.
Proof.
  unfold field, len. rewrite Nat2Z.id.
  rewrite skipn_app, skipn_all, Nat.sub_diag. simpl skipn.
  rewrite app_nil_l, firstn_app, le_length, Nat.sub_diag, firstn_O, app_nil_r.
  rewrite firstn_all2 by (rewrite le_length; lia).
  apply le_decode_le.
Qed.

Lemma nth_error_split_at {A : Type} (l : list A) (i : nat) (x : A) :
  nth_error l i = Some x ->
  l = firstn i l ++ x :: skipn (S i) l /\ length (firstn i l) = i.
Proof.
  revert i; induction l as [|y l IH]; intros [|i] Hn; simpl in Hn;
    try discriminate.
  - injection Hn as ->. split; reflexivity.
  - destruct (IH i Hn) as [Hl Hlen]. split.
    + simpl. f_equal. exact Hl.
    + simpl. f_equal. exact Hlen.
Qed.

Lemma offsets_nth (snts : list Sentinel) :
  forall start i snt,
    nth_error snts i = Some snt ->
    nth_error (Wire.offsets start snts) i =
    Some (start + len (flat_map Wire.sentinel (firstn i snts))).
Proof.
  induction snts as [|s snts IH]; intros start [|i] snt Hn; simpl in Hn;
    try discriminate.
  - simpl. f_equal. unfold len; simpl; lia.
  - cbn [Wire.offsets nth_error firstn flat_map].
    rewrite (IH _ _ _ Hn), len_app. f_equal. lia.
Qed.

Lemma flat_map_le_length (n : nat) (l : list Z) :
  length (flat_map (le n) l) = (n * length l)%nat.
Proof.
  induction l as [|x l IH]; simpl; [lia|].
  rewrite length_app, le_length, IH. lia.
Qed.

Lemma flat_map_record_in (snts part : list Sentinel) :
  sentinels_error snts = None ->
  (forall snt, In snt part -> In snt snts) ->
  flat_map record part = flat_map Wire.sentinel part.
Proof.
  intros Hn Hsub. pose proof (first_error_None _ _ Hn) as Hall.
  induction part as [|snt part IH]; [reflexivity|].
  simpl. rewrite record_wire by (apply Hall, Hsub; left; reflexivity).
  rewrite IH; [reflexivity|]. intros x Hx. apply Hsub. right; assumption.
Qed.

(** The entry of the offset table for the sentinel at [i], in a stream. *)
Lemma stream_offset_entry (snts : list Sentinel) (i : nat) (snt : Sentinel) :
  nth_error snts i = Some snt ->
  field (Wire.stream snts) (4 + 2 + 8 * Z.of_nat i) 8 =
  (4 + 2 + 8 * len snts + 2 +
   len (flat_map Wire.sentinel (firstn i snts))) mod 2 ^ 64.
Proof.
  intros Hi.
  pose proof (offsets_nth snts (4 + 2 + 8 * len snts + 2) i snt Hi) as Ho.
  destruct (nth_error_split_at _ _ _ Ho) as [Hsplit Hlen].
  unfold Wire.stream. rewrite Hsplit at 1.
  rewrite flat_map_app. cbn [flat_map].
  set (a := le 4 4 ++ Wire.u16 (len snts) ++
            flat_map (le 8)
              (firstn i (Wire.offsets (4 + 2 + 8 * len snts + 2) snts))).
  replace (4 + 2 + 8 * Z.of_nat i) with (len a).
  - rewrite <- (field_at a
      (flat_map (le 8)
         (skipn (S i) (Wire.offsets (4 + 2 + 8 * len snts + 2) snts)) ++
       Wire.u16 (len snts) ++ flat_map Wire.sentinel snts) 8).
    f_equal. unfold a. rewrite <- !app_assoc. reflexivity.
  - unfold a, len in *. rewrite !length_app, flat_map_le_length, Hlen.
    unfold Wire.u16. rewrite !le_length. lia.
Qed.

Lemma stream_header_length (snts : list Sentinel) :
  len (le 4 4 ++ Wire.u16 (len snts) ++
       flat_map (le 8) (Wire.offsets (4 + 2 + 8 * len snts + 2) snts) ++
       Wire.u16 (len snts)) = 4 + 2 + 8 * len snts + 2.
Proof.
  unfold len. rewrite !length_app, flat_map_le_length, offsets_length.
  unfold Wire.u16. rewrite !le_length. lia.
Qed.

(** C1: after a run of [writeSentinels] without error, the 8-byte entry
    of the offset table for the sentinel at [i] is the number of bytes of the
    stream, counted from its first byte, that come before the record of that
    sentinel; the record is followed by the records of the sentinels after it
    up to the end of the stream.  And what [writeSentinel] adds to the
    counting sink for a sentinel is the number of bytes it writes for it to
    the file. *)
Theorem offsetTable_points_at_records :
  (forall path snts d d' out,
     writeSentinels path snts d = (d', None) ->
     stored (d' path) = Some out ->
     len out < 2 ^ 64 ->
     forall i snt,
       nth_error snts i = Some snt ->
       exists pre,
         out = pre ++ record snt ++ flat_map record (skipn (S i) snts) /\
         field out (4 + 2 + 8 * Z.of_nat i) 8 = len pre) /\
  (forall snt (f f' : File) (w : NopWriter),
     0 <= w < 2 ^ 64 ->
     writeSentinel snt f = (f', None) ->
     writeSentinel snt w =
     (uint64 (w + (len (data f') - len (data f))), None)).
Proof.
  split.
  - intros path snts d d' out Hrun Hout Hsmall i snt Hi.
    destruct (writeSentinels_done _ _ _ _ Hrun) as [Hn Hst].
    rewrite Hst in Hout. injection Hout as <-.
    destruct (nth_error_split_at _ _ _ Hi) as [Hsplit _].
    exists (le 4 4 ++ Wire.u16 (len snts) ++
            flat_map (le 8) (Wire.offsets (4 + 2 + 8 * len snts + 2) snts) ++
            Wire.u16 (len snts) ++
            flat_map Wire.sentinel (firstn i snts)).
    assert (Hin : forall x, In x (snt :: skipn (S i) snts) -> In x snts).
    { intros x Hx. rewrite Hsplit. apply in_or_app. right; exact Hx. }
    assert (Heq : Wire.stream snts =
      (le 4 4 ++ Wire.u16 (len snts) ++
       flat_map (le 8) (Wire.offsets (4 + 2 + 8 * len snts + 2) snts) ++
       Wire.u16 (len snts) ++ flat_map Wire.sentinel (firstn i snts)) ++
      record snt ++ flat_map record (skipn (S i) snts)).
    { change (record snt ++ flat_map record (skipn (S i) snts))
        with (flat_map record (snt :: skipn (S i) snts)).
      rewrite (flat_map_record_in snts _ Hn Hin).
      unfold Wire.stream. rewrite Hsplit at 5.
      rewrite flat_map_app, <- !app_assoc. reflexivity. }
    split; [exact Heq|].
    rewrite stream_offset_entry with (snt := snt) by assumption.
    rewrite !app_assoc, len_app, <- !app_assoc, stream_header_length.
    apply Z.mod_small. split.
    + pose proof (len_nonneg snts).
      pose proof (len_nonneg (flat_map Wire.sentinel (firstn i snts))). lia.
    + rewrite Heq, len_app in Hsmall.
      rewrite !app_assoc, len_app, <- !app_assoc,
        stream_header_length in Hsmall.
      pose proof (len_nonneg
        (record snt ++ flat_map record (skipn (S i) snts))). lia.
  - intros snt f f' w Hw Hf.
    destruct (sentinel_error snt) as [e|] eqn:Es.
    + destruct (writeSentinel_fails snt e Es f I) as [bs Hbs].
      rewrite Hbs in Hf. unfold feed, andThen, ret in Hf.
      destruct (Write f bs) as [f1 [e1|]]; discriminate.
    + rewrite (writeSentinel_writes snt Es f I) in Hf.
      apply File_Write_data in Hf.
      rewrite (writeSentinel_count snt w Hw Es).
      rewrite Hf, len_app. do 2 f_equal. lia.
Qed.

Lemma offsetTable_points_at_records_witness :
  exists pre,
    Wire.stream
      [mkSentinel (lit "GET") [lit "a"]
         [[[mkStmt CTX EQ (lit "json") []]; [mkStmt 0 BLOCK [] []]]];
       mkSentinel (lit "*") [] [[[mkStmt 0 PASS [] []]]]] =
    pre ++ record (mkSentinel (lit "*") [] [[[mkStmt 0 PASS [] []]]]) ++ [] /\
    field
      (Wire.stream
         [mkSentinel (lit "GET") [lit "a"]
            [[[mkStmt CTX EQ (lit "json") []]; [mkStmt 0 BLOCK [] []]]];
          mkSentinel (lit "*") [] [[[mkStmt 0 PASS [] []]]]])
      (4 + 2 + 8 * 1) 8 = len pre.
Proof.
  refine (proj1 offsetTable_points_at_records (lit "sentinels.bin")
            [mkSentinel (lit "GET") [lit "a"]
               [[[mkStmt CTX EQ (lit "json") []]; [mkStmt 0 BLOCK [] []]]];
             mkSentinel (lit "*") [] [[[mkStmt 0 PASS [] []]]]]
            (fun _ => mkSlot false None None)
            (commit (lit "sentinels.bin")
               (mkFile
                  (Wire.stream
                     [mkSentinel (lit "GET") [lit "a"]
                        [[[mkStmt CTX EQ (lit "json") []];
                          [mkStmt 0 BLOCK [] []]]];
                      mkSentinel (lit "*") [] [[[mkStmt 0 PASS [] []]]]])
                  None)
               (fun _ => mkSlot false None None))
            _ _ _ _ 1%nat _ _).
  - reflexivity.
  - reflexivity.
  - reflexivity.
  - reflexivity.
Defined.

(** ** Counts and lengths *)

Lemma stream_counts (snts : list Sentinel) :
  field (Wire.stream snts) 4 2 = len snts mod 2 ^ 16 /\
  field (Wire.stream snts) (4 + 2 + 8 * len snts) 2 = len snts mod 2 ^ 16.
Proof.
  unfold Wire.stream, Wire.u16.
  set (offs := Wire.offsets (4 + 2 + 8 * len snts + 2) snts).
  set (v := len snts mod 2 ^ 16).
  assert (Hv : v mod 256 ^ Z.of_nat 2 = v).
  { change (256 ^ Z.of_nat 2) with (2 ^ 16). apply Z.mod_mod. lia. }
  split.
  - pose proof (field_at (le 4 4)
      (flat_map (le 8) offs ++ le 2 v ++ flat_map Wire.sentinel snts)
      2 v) as Hf.
    change (len (le 4 4)) with 4 in Hf. rewrite Hf. exact Hv.
  - pose proof (field_at (le 4 4 ++ le 2 v ++ flat_map (le 8) offs)
      (flat_map Wire.sentinel snts) 2 v) as Hf.
    rewrite <- !app_assoc in Hf.
    replace (len (le 4 4 ++ le 2 v ++ flat_map (le 8) offs))
      with (4 + 2 + 8 * len snts) in Hf.
    + rewrite Hf. exact Hv.
    + unfold len. rewrite !length_app, flat_map_le_length, !le_length.
      unfold offs. rewrite offsets_length. lia.
Qed.

(** C7, as the code has it: an input that ends before any value is read as
    no endpoints, and for no endpoints the output is the 4-byte version, a
    2-byte count 0, no offset entry, a 2-byte count 0 and no record.  For
    every list of sentinels the two counts written are the number of
    sentinels modulo 2^16, hence that number when it is below 65536. *)
Theorem empty_input_minimal_stream :
  readEndpoints (Readable AtEOF) = ([], None) /\
  (forall input output d,
     input = Readable AtEOF \/ input = Readable (Decoded []) ->
     refused (d output) = false ->
     match space (d output) with
     | None => True
     | Some n => (8 <= n)%N
     end ->
     exists d',
       main input output d = Some (d', Exit0) /\
       stored (d' output) = Some (le 4 VERSION ++ le 2 0 ++ le 2 0)) /\
  (forall path snts d d' out,
     writeSentinels path snts d = (d', None) ->
     stored (d' path) = Some out ->
     field out 4 2 = len snts mod 2 ^ 16 /\
     field out (4 + 2 + 8 * len snts) 2 = len snts mod 2 ^ 16 /\
     (len snts < 2 ^ 16 ->
      field out 4 2 = len snts /\
      field out (4 + 2 + 8 * len snts) 2 = len snts)).
Proof.
  split; [reflexivity|]. split.
  - intros input output d Hin Hr Hs.
    destruct (writeSentinels_runs output [] d Hr) as (d' & Hrun & Hst & _).
    + destruct (space (d output)); [exact Hs | exact I].
    + reflexivity.
    + exists d'. split; [|exact Hst].
      destruct Hin as [-> | ->]; unfold main; simpl readEndpoints;
        cbv iota; change (makeSentinels []) with
          (Some (Done (@nil Sentinel, @None error)));
        cbv iota; rewrite Hrun; reflexivity.
  - intros path snts d d' out Hrun Hout.
    destruct (writeSentinels_done _ _ _ _ Hrun) as [_ Hst].
    rewrite Hst in Hout. injection Hout as <-.
    destruct (stream_counts snts) as [H1 H2].
    split; [exact H1|]. split; [exact H2|].
    intros Hlt. rewrite H1, H2.
    pose proof (len_nonneg snts).
    rewrite Z.mod_small by lia. split; reflexivity.
Qed.

Lemma empty_input_minimal_stream_witness :
  exists d',
    main (Readable AtEOF) (lit "sentinels.bin")
      (fun _ => mkSlot false (Some 8%N) None) =
      Some (d', Exit0) /\
    stored (d' (lit "sentinels.bin")) = Some (le 4 VERSION ++ le 2 0 ++ le 2 0).
Proof.
  refine (proj1 (proj2 empty_input_minimal_stream) (Readable AtEOF)
            (lit "sentinels.bin")
            (fun _ => mkSlot false (Some 8%N) None) _ _ _).
  - left; reflexivity.
  - reflexivity.
  - simpl. lia.
Defined.

Lemma first_error_repeat {A : Type} (chk : A -> option error) (x : A)
  (n : nat) :
  chk x = None -> first_error chk (repeat x n) = None.
Proof.
  intros Hx. induction n as [|n IH]; simpl; [reflexivity|].
  rewrite Hx. exact IH.
Qed.

(** C7 as stated fails: with 65536 sentinels both counts are written
    as 0. *)
Lemma sentinel_count_wraps :
  exists d' out,
    writeSentinels (lit "sentinels.bin")
      (repeat (mkSentinel [] [] []) (Z.to_nat 65536))
      (fun _ => mkSlot false None None) = (d', None) /\
    stored (d' (lit "sentinels.bin")) = Some out /\
    len (repeat (mkSentinel [] [] []) (Z.to_nat 65536)) = 65536 /\
    field out 4 2 = 0 /\
    field out (4 + 2 + 8 * 65536) 2 = 0.
Proof.
  assert (Hlen : len (repeat (mkSentinel [] [] []) (Z.to_nat 65536)) = 65536).
  { unfold len. rewrite repeat_length. apply Z2Nat.id. lia. }
  destruct (writeSentinels_runs (lit "sentinels.bin")
              (repeat (mkSentinel [] [] []) (Z.to_nat 65536))
              (fun _ => mkSlot false None None) eq_refl I)
    as (d' & Hrun & Hst & _).
  { apply first_error_repeat. reflexivity. }
  exists d', (Wire.stream (repeat (mkSentinel [] [] []) (Z.to_nat 65536))).
  split; [exact Hrun|]. split; [exact Hst|]. split; [exact Hlen|].
  destruct (stream_counts (repeat (mkSentinel [] [] []) (Z.to_nat 65536)))
    as [H1 H2].
  rewrite Hlen in H1, H2. split; [exact H1 | exact H2].
Qed.

Lemma bytes_repeat_ascii (n : nat) : bytes (repeat 97 n) = repeat 97 n.
Proof. induction n as [|n IH]; simpl; [reflexivity|]. f_equal. exact IH. Qed.

(** C10: every count and every string length of the output is written as
    2 bytes holding the value modulo 2^16, whatever the value, without error:
    the stream written is the wire format, in which the number of offsets and
    of sentinels, the lengths of the method, of the segments and of the
    values, and the numbers of segments, rules, clauses and statements are so
    reduced.  A string of 65536 bytes is written with the length 0 before all
    of its bytes. *)
Theorem counts_and_lengths_wrap :
  (forall path snts d,
     refused (d path) = false ->
     space (d path) = None ->
     sentinels_error snts = None ->
     exists d',
       writeSentinels path snts d = (d', None) /\
       stored (d' path) = Some (Wire.stream snts)) /\
  (forall snts,
     Wire.stream snts =
     le 4 4 ++
     le 2 (len snts mod 2 ^ 16) ++
     flat_map (le 8) (Wire.offsets (4 + 2 + 8 * len snts + 2) snts) ++
     le 2 (len snts mod 2 ^ 16) ++
     flat_map Wire.sentinel snts) /\
  (forall snt,
     Wire.sentinel snt =
     (le 2 (strlen (Method snt) mod 2 ^ 16) ++ bytes (Method snt)) ++
     le 2 (len (Path snt) mod 2 ^ 16) ++
     flat_map (fun seg => le 2 (strlen seg mod 2 ^ 16) ++ bytes seg)
       (Path snt) ++
     le 2 (len (Rules snt) mod 2 ^ 16) ++
     flat_map
       (fun rule =>
          le 2 (len rule mod 2 ^ 16) ++
          flat_map
            (fun clause =>
               le 2 (len clause mod 2 ^ 16) ++
               flat_map Wire.statement clause) rule) (Rules snt)) /\
  (forall stmt,
     Var stmt <> CTX ->
     Wire.statement stmt =
     le 1 (Var stmt) ++ le 1 (Op stmt) ++
     (if strlen (Regexp stmt) =? 0
      then STRING :: le 2 (strlen (Val stmt) mod 2 ^ 16) ++ bytes (Val stmt)
      else REGEXP :: le 2 (strlen (Regexp stmt) mod 2 ^ 16) ++
           bytes (Regexp stmt))) /\
  (forall (val : gostring) (w : File),
     room w = None ->
     writeStr val w =
     (mkFile (data w ++ le 2 (strlen val mod 2 ^ 16) ++ bytes val) None,
      None)) /\
  (strlen (repeat 97 (Z.to_nat 65536)) = 65536 /\
   writeStr (repeat 97 (Z.to_nat 65536)) (mkFile [] None) =
   (mkFile ([0; 0] ++ repeat 97 (Z.to_nat 65536)) None, None)).
Proof.
  assert (Hstr : forall (val : gostring) (w : File),
            room w = None ->
            writeStr val w =
            (mkFile (data w ++ le 2 (strlen val mod 2 ^ 16) ++ bytes val) None,
             None)).
  { intros val [dt rm] Hr. simpl in Hr. subst rm.
    rewrite (writeStr_writes val (mkFile dt None) I). reflexivity. }
  assert (Hlen : strlen (repeat 97 (Z.to_nat 65536)) = 65536).
  { unfold strlen, len. rewrite bytes_repeat_ascii, repeat_length.
    apply Z2Nat.id. lia. }
  split; [|split; [|split; [|split; [|split; [|split]]]]].
  - intros path snts d Hr Hs Hn.
    destruct (writeSentinels_runs path snts d Hr) as (d' & Hrun & Hst & _).
    + rewrite Hs. exact I.
    + exact Hn.
    + exists d'. split; assumption.
  - reflexivity.
  - reflexivity.
  - intros stmt Hv. unfold Wire.statement, Wire.value.
    apply Z.eqb_neq in Hv. change CTX with 1 in Hv. rewrite Hv.
    reflexivity.
  - exact Hstr.
  - exact Hlen.
  - rewrite (Hstr _ (mkFile [] None) eq_refl), Hlen, bytes_repeat_ascii.
    reflexivity.
Qed.

Lemma counts_and_lengths_wrap_witness :
  exists d',
    writeSentinels (lit "sentinels.bin")
      [mkSentinel (lit "GET") [lit "api"; lit "*"]
         [[[mkStmt KEY EQ (lit "id") []]; [mkStmt 0 BLOCK [] []]]]]
      (fun _ => mkSlot false None None) = (d', None) /\
    stored (d' (lit "sentinels.bin")) =
    Some (Wire.stream
            [mkSentinel (lit "GET") [lit "api"; lit "*"]
               [[[mkStmt KEY EQ (lit "id") []]; [mkStmt 0 BLOCK [] []]]]]).
Proof.
  refine (proj1 counts_and_lengths_wrap (lit "sentinels.bin")
            [mkSentinel (lit "GET") [lit "api"; lit "*"]
               [[[mkStmt KEY EQ (lit "id") []]; [mkStmt 0 BLOCK [] []]]]]
            (fun _ => mkSlot false None None) _ _ _); reflexivity.
Defined.

(** ** Unknown contexts *)

Lemma first_error_Some_in {A : Type} (chk : A -> option error) (xs : list A)
  (e : error) :
  first_error chk xs = Some e -> exists x, In x xs /\ chk x = Some e.
Proof.
  induction xs as [|y xs IH]; simpl; [discriminate|].
  destruct (chk y) as [e'|] eqn:Ey.
  - intros [= ->]. exists y. auto.
  - intros He. destruct (IH He) as (x & Hx & Hc). exists x. auto.
Qed.

Lemma first_error_exists {A : Type} (chk : A -> option error) (xs : list A)
  (x : A) :
  In x xs -> chk x <> None -> first_error chk xs <> None.
Proof.
  induction xs as [|y xs IH]; simpl; [contradiction|].
  intros [<-|Hx] Hc.
  - destruct (chk y); [discriminate | contradiction].
  - destruct (chk y); [discriminate | auto].
Qed.

Lemma ctx_error_Some (stmt : Stmt) (e : error) :
  ctx_error stmt = Some e ->
  Var stmt = CTX /\
  exists name,
    In name (ctx_names (Val stmt)) /\ unknown_ctx name /\
    e = UnknownContext name.
Proof.
  unfold ctx_error. destruct (Z.eqb_spec (Var stmt) CTX) as [Hv|];
    [|discriminate].
  intros He. split; [assumption|].
  destruct (known_or_unknown (Split (Val stmt) BAR)) as [Hk|Hu].
  - rewrite writeCtx_loop_known in He by (assumption || lia). discriminate.
  - destruct (writeCtx_loop_unknown _ 0 Hu) as (name & Hin & Hc & Hs).
    exists name. rewrite unknown_ctx_iff. repeat split; try assumption.
    congruence.
Qed.

Lemma ctx_error_unknown (stmt : Stmt) (name : gostring) :
  Var stmt = CTX ->
  In name (ctx_names (Val stmt)) ->
  unknown_ctx name ->
  ctx_error stmt <> None.
Proof.
  intros Hv Hin Hu. unfold ctx_error. rewrite Hv, Z.eqb_refl.
  destruct (unknown_names (Val stmt)) as (name' & _ & _ & Hs).
  - apply Exists_exists. exists name. auto.
  - rewrite Hs. discriminate.
Qed.

(** The error of a list of sentinels names an unknown context of one of
    its [$ctx] statements, and there is one when there is such a context. *)
Lemma sentinels_error_Some (snts : list Sentinel) (e : error) :
  sentinels_error snts = Some e ->
  exists stmt name,
    ctx_stmt_of snts stmt /\ In name (ctx_names (Val stmt)) /\
    unknown_ctx name /\ e = UnknownContext name.
Proof.
  intros He.
  apply first_error_Some_in in He. destruct He as (snt & Hsnt & He).
  apply first_error_Some_in in He. destruct He as (rule & Hrule & He).
  apply first_error_Some_in in He. destruct He as (clause & Hclause & He).
  apply first_error_Some_in in He. destruct He as (stmt & Hstmt & He).
  apply ctx_error_Some in He. destruct He as (Hv & name & Hin & Hu & ->).
  exists stmt, name. repeat split; try assumption.
  exists snt, rule, clause. auto.
Qed.

Lemma sentinels_error_unknown (snts : list Sentinel) (stmt : Stmt)
  (name : gostring) :
  ctx_stmt_of snts stmt ->
  In name (ctx_names (Val stmt)) ->
  unknown_ctx name ->
  sentinels_error snts <> None.
Proof.
  intros (snt & rule & clause & Hsnt & Hrule & Hclause & Hstmt & Hv) Hin Hu.
  apply (first_error_exists _ _ snt Hsnt).
  apply (first_error_exists _ _ rule Hrule).
  apply (first_error_exists _ _ clause Hclause).
  apply (first_error_exists _ _ stmt Hstmt).
  apply (ctx_error_unknown stmt name); assumption.
Qed.

(** The error of the loop of [writeCtx] names the first unknown name of
    the list, whatever comes after it. *)
Lemma writeCtx_loop_first (contexts : list gostring) :
  forall r e,
    snd (writeCtx_loop contexts r) = Some e <->
    exists pre name post,
      map TrimSpace contexts = pre ++ name :: post /\
      Forall (fun n => ~ unknown_ctx n) pre /\
      unknown_ctx name /\
      e = UnknownContext name.
Proof.
  induction contexts as [|c contexts IH]; intros r e.
  - simpl. split; [discriminate|].
    intros (pre & name & post & Hl & _). destruct pre; discriminate.
  - cbn [writeCtx_loop map]. rewrite getCtxCode_code.
    destruct (Wire.context_code (TrimSpace c)) as [n|] eqn:E.
    + rewrite IH. split.
      * intros (pre & name & post & Hl & Hk & Hu & ->).
        exists (TrimSpace c :: pre), name, post. rewrite Hl.
        repeat split; try assumption.
        constructor; [|assumption]. rewrite unknown_ctx_iff. congruence.
      * intros (pre & name & post & Hl & Hk & Hu & ->).
        destruct pre as [|p pre].
        -- injection Hl as Hc _. rewrite Hc in E.
           apply unknown_ctx_iff in Hu. congruence.
        -- injection Hl as _ Hl. inversion Hk; subst.
           exists pre, name, post. auto.
    + cbn [snd]. split.
      * intros [= <-]. exists [], (TrimSpace c), (map TrimSpace contexts).
        repeat split; [constructor | apply unknown_ctx_iff, E].
      * intros (pre & name & post & Hl & Hk & Hu & ->).
        destruct pre as [|p pre].
        -- injection Hl as <- _. reflexivity.
        -- injection Hl as <- _. inversion Hk as [|? ? Hp _]; subst.
           exfalso. apply Hp, unknown_ctx_iff, E.
Qed.

Lemma ctx_error_first (stmt : Stmt) (e : error) :
  ctx_error stmt = Some e <->
  Var stmt = CTX /\
  exists pre name post,
    ctx_names (Val stmt) = pre ++ name :: post /\
    Forall (fun n => ~ unknown_ctx n) pre /\
    unknown_ctx name /\
    e = UnknownContext name.
Proof.
  unfold ctx_error, ctx_names.
  destruct (Z.eqb_spec (Var stmt) CTX) as [Hv|Hv].
  - rewrite writeCtx_loop_first. tauto.
  - split; [discriminate | tauto].
Qed.

Lemma ctx_error_None (stmt : Stmt) :
  ctx_error stmt = None <-> lists_known stmt.
Proof.
  unfold lists_known. split.
  - intros Hn Hv. apply Forall_forall. intros name Hin Hu.
    exact (ctx_error_unknown stmt name Hv Hin Hu Hn).
  - intros Hk. destruct (ctx_error stmt) as [e|] eqn:E; [|reflexivity].
    apply ctx_error_Some in E. destruct E as (Hv & name & Hin & Hu & _).
    specialize (Hk Hv). rewrite Forall_forall in Hk.
    exfalso. exact (Hk name Hin Hu).
Qed.

Lemma first_error_app {A : Type} (chk : A -> option error) (xs ys : list A) :
  first_error chk (xs ++ ys) =
  match first_error chk xs with
  | Some e => Some e
  | None => first_error chk ys
  end.
Proof.
  induction xs as [|x xs IH]; simpl; [reflexivity|].
  destruct (chk x); [reflexivity | exact IH].
Qed.

Lemma first_error_flat_map {A B : Type} (chk : B -> option error)
  (f : A -> list B) (xs : list A) :
  first_error chk (flat_map f xs) =
  first_error (fun x => first_error chk (f x)) xs.
Proof.
  induction xs as [|x xs IH]; simpl; [reflexivity|].
  rewrite first_error_app, IH. reflexivity.
Qed.

Lemma first_error_split {A : Type} (chk : A -> option error) (xs : list A)
  (e : error) :
  first_error chk xs = Some e <->
  exists pre x post,
    xs = pre ++ x :: post /\
    Forall (fun y => chk y = None) pre /\
    chk x = Some e.
Proof.
  induction xs as [|y xs IH]; simpl.
  - split; [discriminate|].
    intros (pre & x & post & Hl & _). destruct pre; discriminate.
  - destruct (chk y) as [e'|] eqn:Ey.
    + split.
      * intros [= <-]. exists [], y, xs. repeat split; [constructor|exact Ey].
      * intros (pre & x & post & Hl & Hp & Hx).
        destruct pre as [|p pre].
        -- injection Hl as <- _. congruence.
        -- injection Hl as <- _. inversion Hp; subst. congruence.
    + rewrite IH. split.
      * intros (pre & x & post & -> & Hp & Hx).
        exists (y :: pre), x, post. repeat split; try assumption.
        constructor; assumption.
      * intros (pre & x & post & Hl & Hp & Hx).
        destruct pre as [|p pre].
        -- injection Hl as <- _. congruence.
        -- injection Hl as _ ->. inversion Hp; subst.
           exists pre, x, post. auto.
Qed.

Lemma first_error_ext {A : Type} (f g : A -> option error) (xs : list A) :
  (forall x, f x = g x) -> first_error f xs = first_error g xs.
Proof.
  intros Hfg. induction xs as [|x xs IH]; simpl; [reflexivity|].
  rewrite Hfg, IH. reflexivity.
Qed.

Lemma sentinels_error_statements (snts : list Sentinel) :
  sentinels_error snts = first_error ctx_error (statements snts).
Proof.
  unfold sentinels_error, statements.
  rewrite first_error_flat_map. apply first_error_ext. intros snt.
  unfold sentinel_error.
  rewrite first_error_flat_map. apply first_error_ext. intros rule.
  rewrite first_error_flat_map. apply first_error_ext. intros clause.
  reflexivity.
Qed.

(** The error of the counting pass is the first unknown context. *)
Lemma sentinels_error_first (snts : list Sentinel) (e : error) :
  sentinels_error snts = Some e <->
  exists name, e = UnknownContext name /\ first_unknown snts name.
Proof.
  rewrite sentinels_error_statements, first_error_split. split.
  - intros (spre & stmt & spost & Hl & Hp & Hx).
    apply ctx_error_first in Hx.
    destruct Hx as (Hv & pre & name & post & Hn & Hk & Hu & ->).
    exists name. split; [reflexivity|].
    exists spre, stmt, spost, pre, post. repeat split; try assumption.
    revert Hp. apply Forall_impl. intros s. apply ctx_error_None.
  - intros (name & -> & spre & stmt & spost & pre & post
            & Hl & Hp & Hv & Hn & Hk & Hu).
    exists spre, stmt, spost. repeat split; [assumption| |].
    + revert Hp. apply Forall_impl. intros s. apply ctx_error_None.
    + apply ctx_error_first. split; [assumption|].
      exists pre, name, post. auto.
Qed.

Lemma writeSentinels_first_unknown (path : gostring) (snts : list Sentinel)
  (d : Disk) (name : gostring) :
  first_unknown snts name ->
  refused (d path) = false ->
  match space (d path) with
  | None => True
  | Some n => (4 <= n)%N
  end ->
  exists d',
    writeSentinels path snts d = (d', Some (UnknownContext name)) /\
    stored (d' path) = Some (le 4 VERSION).
Proof.
  intros Hfirst Hr Hs.
  assert (He : sentinels_error snts = Some (UnknownContext name)).
  { apply sentinels_error_first. exists name. auto. }
  unfold writeSentinels, OpenFile. rewrite Hr.
  rewrite (writeSentinels_file_fails snts _ _ He).
  unfold feed, andThen, ret.
  destruct (space (d path)) as [n|].
  - rewrite File_Write_fits by exact Hs.
    eexists. split; [reflexivity|]. rewrite commit_at. reflexivity.
  - rewrite File_Write_unlimited.
    eexists. split; [reflexivity|]. rewrite commit_at. reflexivity.
Qed.

Lemma first_unknown_exists (snts : list Sentinel) (stmt : Stmt)
  (name : gostring) :
  ctx_stmt_of snts stmt ->
  In name (ctx_names (Val stmt)) ->
  unknown_ctx name ->
  exists name' stmt',
    first_unknown snts name' /\
    ctx_stmt_of snts stmt' /\
    In name' (ctx_names (Val stmt')) /\
    unknown_ctx name'.
Proof.
  intros Hstmt Hin Hu.
  pose proof (sentinels_error_unknown snts stmt name Hstmt Hin Hu) as Hne.
  destruct (sentinels_error snts) as [e|] eqn:He; [|contradiction].
  destruct (sentinels_error_Some snts e He)
    as (stmt' & name' & Hstmt' & Hin' & Hu' & ->).
  apply sentinels_error_first in He. destruct He as (name2 & Heq & Hf).
  injection Heq as <-.
  exists name', stmt'. auto.
Qed.

(** C2, as the code has it: when a [$ctx] statement of the compiled rules
    names an unknown context, [writeSentinels] returns the error that names
    the first unknown context met, in the order in which the statements are
    written and, in the value of a statement, from left to right; [main] ends
    with it.  By then the destination has been created or truncated and the
    version has been written to it, and these 4 bytes are what the file
    holds. *)
Theorem unknown_context_aborts :
  (forall path snts d stmt name,
     ctx_stmt_of snts stmt ->
     In name (ctx_names (Val stmt)) ->
     unknown_ctx name ->
     refused (d path) = false ->
     match space (d path) with
     | None => True
     | Some n => (4 <= n)%N
     end ->
     exists name' stmt' d',
       first_unknown snts name' /\
       writeSentinels path snts d = (d', Some (UnknownContext name')) /\
       ctx_stmt_of snts stmt' /\
       In name' (ctx_names (Val stmt')) /\
       unknown_ctx name' /\
       stored (d' path) = Some (le 4 VERSION)) /\
  (forall path snts d name,
     first_unknown snts name ->
     refused (d path) = false ->
     match space (d path) with
     | None => True
     | Some n => (4 <= n)%N
     end ->
     exists d',
       writeSentinels path snts d = (d', Some (UnknownContext name)) /\
       stored (d' path) = Some (le 4 VERSION)) /\
  (forall input epts snts output d stmt name,
     readEndpoints input = (epts, None) ->
     makeSentinels epts = Some (Done (snts, None)) ->
     ctx_stmt_of snts stmt ->
     In name (ctx_names (Val stmt)) ->
     unknown_ctx name ->
     refused (d output) = false ->
     match space (d output) with
     | None => True
     | Some n => (4 <= n)%N
     end ->
     exists name' d',
       first_unknown snts name' /\
       main input output d = Some (d', LogFatal (UnknownContext name')) /\
       unknown_ctx name' /\
       stored (d' output) = Some (le 4 VERSION)) /\
  (forall input epts snts output d name,
     readEndpoints input = (epts, None) ->
     makeSentinels epts = Some (Done (snts, None)) ->
     first_unknown snts name ->
     refused (d output) = false ->
     match space (d output) with
     | None => True
     | Some n => (4 <= n)%N
     end ->
     exists d',
       main input output d = Some (d', LogFatal (UnknownContext name)) /\
       stored (d' output) = Some (le 4 VERSION)).
Proof.
  split; [|split; [|split]].
  - intros path snts d stmt name Hstmt Hin Hu Hr Hs.
    destruct (first_unknown_exists snts stmt name Hstmt Hin Hu)
      as (name' & stmt' & Hfirst & Hstmt' & Hin' & Hu').
    destruct (writeSentinels_first_unknown path snts d name' Hfirst Hr Hs)
      as (d' & Hrun & Hst).
    exists name', stmt', d'. auto 10.
  - exact writeSentinels_first_unknown.
  - intros input epts snts output d stmt name Hread Hmake Hstmt Hin Hu Hr Hs.
    destruct (first_unknown_exists snts stmt name Hstmt Hin Hu)
      as (name' & stmt' & Hfirst & _ & _ & Hu').
    destruct (writeSentinels_first_unknown output snts d name' Hfirst Hr Hs)
      as (d' & Hrun & Hst).
    exists name', d'. unfold main. rewrite Hread, Hmake, Hrun. auto.
  - intros input epts snts output d name Hread Hmake Hfirst Hr Hs.
    destruct (writeSentinels_first_unknown output snts d name Hfirst Hr Hs)
      as (d' & Hrun & Hst).
    exists d'. unfold main. rewrite Hread, Hmake, Hrun. auto.
Qed.

Lemma unknown_context_aborts_witness :
  exists d',
    writeSentinels (lit "sentinels.bin")
      [mkSentinel (lit "POST") [lit "api"]
         [[[mkStmt KEY EQ (lit "id") []];
           [mkStmt CTX EQ (lit "json|jsonx|foo") []];
           [mkStmt 0 BLOCK [] []]];
          [[mkStmt CTX EQ (lit "bar") []]]]]
      (fun _ => mkSlot false (Some 4%N) (Some [1; 2; 3; 4; 5])) =
      (d', Some (UnknownContext (lit "jsonx"))) /\
    stored (d' (lit "sentinels.bin")) = Some (le 4 VERSION).
Proof.
  refine (proj1 (proj2 unknown_context_aborts) (lit "sentinels.bin")
            [mkSentinel (lit "POST") [lit "api"]
               [[[mkStmt KEY EQ (lit "id") []];
                 [mkStmt CTX EQ (lit "json|jsonx|foo") []];
                 [mkStmt 0 BLOCK [] []]];
                [[mkStmt CTX EQ (lit "bar") []]]]]
            (fun _ => mkSlot false (Some 4%N) (Some [1; 2; 3; 4; 5]))
            (lit "jsonx") _ _ _).
  - exists [mkStmt KEY EQ (lit "id") []],
      (mkStmt CTX EQ (lit "json|jsonx|foo") []),
      [mkStmt 0 BLOCK [] []; mkStmt CTX EQ (lit "bar") []],
      [lit "json"], [lit "foo"].
    split; [reflexivity|]. split.
    { constructor; [|constructor]. intros Hv. discriminate Hv. }
    split; [reflexivity|]. split; [reflexivity|]. split.
    { constructor; [|constructor]. intros Hu. apply Hu. reflexivity. }
    discriminate.
  - reflexivity.
  - simpl. lia.
Defined.

(** C2 as stated fails: the run on a rule with the context [jsonx] ends
    in the error, and the destination, which did not exist, holds the 4 bytes
    of the version. *)
Lemma unknown_context_leaves_version :
  exists d',
    main (Readable (Decoded [mkEndpoint (lit "POST") (lit "/api")
                               [lit "$ctx == 'jsonx' : block"]]))
      (lit "sentinels.bin") (fun _ => mkSlot false None None) =
      Some (d', LogFatal (UnknownContext (lit "jsonx"))) /\
    stored (d' (lit "sentinels.bin")) = Some [4; 0; 0; 0].
Proof. eexists. split; reflexivity. Qed.

(** * Further properties *)

(** ** Tokens *)

Lemma scanWord_spec (src : gostring) :
  forall dst,
    exists w,
      fst (scanWord dst src) = dst ++ w /\
      Forall (fun c => IsSpace c = false) w.
Proof.
  induction src as [|r src IH]; intros dst; simpl.
  - exists []. rewrite app_nil_r. split; [reflexivity | constructor].
  - destruct (IsSpace r) eqn:Er; simpl.
    + exists []. rewrite app_nil_r. split; [reflexivity | constructor].
    + destruct (IH (dst ++ [r])) as (w & Hw & Hall).
      exists (r :: w). rewrite Hw, <- app_assoc. split; [reflexivity|].
      constructor; assumption.
Qed.

Lemma IsSpace_delims :
  IsSpace QUOTE = false /\ IsSpace SLASH = false /\ IsSpace COLON = false.
Proof. repeat split. Qed.

Lemma token_ok_literal (delim : rune) (body : gostring) :
  delim = QUOTE \/ delim = SLASH ->
  token_ok (delim :: body ++ [delim]).
Proof.
  intros Hd. exists delim, (body ++ [delim]).
  split; [reflexivity|].
  split; [destruct Hd as [-> | ->]; reflexivity|].
  split; [destruct Hd as [-> | ->]; discriminate|].
  split.
  - intros _. exists body. reflexivity.
  - intros Hq Hl. destruct Hd; contradiction.
Qed.

Lemma token_ok_word (r : rune) (w : gostring) :
  IsSpace r = false ->
  r <> COLON -> r <> QUOTE -> r <> SLASH ->
  Forall (fun c => IsSpace c = false) w ->
  token_ok (r :: w).
Proof.
  intros Hs Hc Hq Hl Hw. exists r, w.
  split; [reflexivity|]. split; [assumption|]. split; [assumption|].
  split.
  - intros [H|H]; contradiction.
  - intros _ _. assumption.
Qed.

Lemma scanGroups_loop_tokens (fuel : nat) :
  forall buf result group out,
    Forall (Forall token_ok) result ->
    Forall token_ok group ->
    scanGroups_loop fuel buf result group = Some (Done out) ->
    Forall (Forall token_ok) out.
Proof.
  induction fuel as [|fuel IH]; intros buf result group out Hres Hgrp Hrun;
    [discriminate|].
  destruct buf as [|r buf].
  - simpl in Hrun. injection Hrun as <-.
    destruct (len group =? 0); [assumption|].
    apply Forall_app. split; [assumption|]. constructor; [assumption|].
    constructor.
  - rewrite scanGroups_loop_cons in Hrun.
    destruct (IsSpace r) eqn:Es; [eapply IH; eassumption|].
    destruct (Z.eqb_spec r COLON) as [Hc|Hc].
    { eapply IH; [| |eassumption]; [|constructor].
      apply Forall_app. split; [assumption|]. repeat constructor; assumption. }
    destruct (Z.eqb_spec r QUOTE) as [Hq|Hq].
    { destruct (scanDelim [r] buf QUOTE) as [[tok rest]|] eqn:Ed;
        [|discriminate].
      apply scanDelim_loop_inv in Ed. destruct Ed as (items & _ & _ & ->).
      eapply IH; [eassumption| |eassumption].
      apply Forall_app. split; [assumption|]. constructor; [|constructor].
      subst r. apply (token_ok_literal QUOTE). left; reflexivity. }
    destruct (Z.eqb_spec r SLASH) as [Hl|Hl].
    { destruct (scanDelim [r] buf SLASH) as [[tok rest]|] eqn:Ed;
        [|discriminate].
      apply scanDelim_loop_inv in Ed. destruct Ed as (items & _ & _ & ->).
      eapply IH; [eassumption| |eassumption].
      apply Forall_app. split; [assumption|]. constructor; [|constructor].
      subst r. apply (token_ok_literal SLASH). right; reflexivity. }
    destruct (scanWord_spec buf [r]) as (w & Hw & Hall).
    destruct (scanWord [r] buf) as [tok rest]. simpl in Hw. subst tok.
    eapply IH; [eassumption| |eassumption].
    apply Forall_app. split; [assumption|]. constructor; [|constructor].
    apply token_ok_word; assumption.
Qed.

(** X1: every token of every group [scanGroups] returns has a first rune,
    neither white space nor a colon; a token that opens with a quote or a
    slash ends with it, and any other token holds no white space. *)
Theorem scanGroups_tokens :
  forall text groups,
    scanGroups text = Some (Done groups) ->
    Forall (Forall token_ok) groups.
Proof.
  intros text groups Hrun.
  apply (scanGroups_loop_tokens _ _ _ _ _ (Forall_nil _) (Forall_nil _) Hrun).
Qed.

Lemma scanGroups_tokens_witness :
  Forall (Forall token_ok) [[lit "$key"; lit "=="; lit "'a b'"]; [lit "pass"]].
Proof.
  apply (scanGroups_tokens (lit "$key == 'a b' : pass")). reflexivity.
Defined.

(** Inside a literal that is not closed: the scanner ends the process. *)
Lemma scanDelim_loop_unterminated delim (items : list item) :
  forall dst tail,
    delim <> BACKSLASH ->
    Forall (item_ok delim) items ->
    tail = [] \/ tail = [BACKSLASH] ->
    scanDelim_loop false dst (flat_map item_source items ++ tail) delim = None.
Proof.
  intros dst tail Hd Hok Htail. revert dst.
  induction Hok as [|i items Hi Hok IH]; intros dst; simpl.
  - destruct Htail as [-> | ->]; reflexivity.
  - destruct i as [c|c]; simpl.
    + destruct Hi as [Hb Hc]. apply Z.eqb_neq in Hb, Hc.
      rewrite Hb, Hc. apply IH.
    + change (BACKSLASH =? BACKSLASH) with true. cbv iota. apply IH.
Qed.

Lemma scanDelim_loop_None delim (src : gostring) :
  forall escape dst,
    scanDelim_loop escape dst src delim = None ->
    exists items tail,
      Forall (item_ok delim) items /\
      (tail = [] \/ tail = [BACKSLASH]) /\
      (if escape then BACKSLASH :: src else src) =
        flat_map item_source items ++ tail.
Proof.
  induction src as [|r src IH]; intros escape dst Hs.
  - destruct escape.
    + exists [], [BACKSLASH]. repeat split; auto.
    + exists [], []. repeat split; auto.
  - simpl in Hs. destruct escape.
    + apply IH in Hs. destruct Hs as (items & tail & Hok & Htail & Hsrc).
      exists (Escaped r :: items), tail. simpl. rewrite Hsrc.
      repeat split; auto. constructor; [exact I | assumption].
    + destruct (Z.eqb_spec r BACKSLASH) as [->|Hb].
      * apply IH in Hs. exact Hs.
      * destruct (Z.eqb_spec r delim) as [->|Hd]; [discriminate|].
        apply IH in Hs. destruct Hs as (items & tail & Hok & Htail & Hsrc).
        exists (Plain r :: items), tail. simpl. rewrite Hsrc.
        repeat split; auto. constructor; [split; assumption | assumption].
Qed.

(** X2: [scanDelim] ends the process exactly when the literal is not
    closed, that is when what follows the opening delimiter is a run of plain
    runes and escaped runes up to the end of the input, with or without a
    last backslash; [scanGroups] then ends with the message
    [invalid string], whatever it has scanned before. *)
Theorem scanDelim_unterminated :
  forall delim,
    delim = QUOTE \/ delim = SLASH ->
    (forall buf,
       scanDelim [delim] buf delim = None <->
       exists items tail,
         Forall (item_ok delim) items /\
         (tail = [] \/ tail = [BACKSLASH]) /\
         buf = flat_map item_source items ++ tail) /\
    (forall buf result group,
       scanDelim [delim] buf delim = None ->
       scanGroups_from (delim :: buf) result group =
       Some (Fatal "invalid string")).
Proof.
  intros delim Hd.
  assert (Hne : delim <> BACKSLASH) by (destruct Hd as [-> | ->]; discriminate).
  split.
  - intros buf. split.
    + intros Hs. apply (scanDelim_loop_None delim buf false [delim] Hs).
    + intros (items & tail & Hok & Htail & ->).
      apply scanDelim_loop_unterminated; assumption.
  - intros buf result group Hs. unfold scanGroups_from.
    change (length (delim :: buf)) with (S (length buf)).
    rewrite scanGroups_loop_cons.
    destruct Hd as [-> | ->].
    + change (IsSpace QUOTE) with false. change (QUOTE =? COLON) with false.
      change (QUOTE =? QUOTE) with true. cbv iota. rewrite Hs. reflexivity.
    + change (IsSpace SLASH) with false. change (SLASH =? COLON) with false.
      change (SLASH =? QUOTE) with false. change (SLASH =? SLASH) with true.
      cbv iota. rewrite Hs. reflexivity.
Qed.

Lemma scanDelim_unterminated_witness :
  scanGroups_from (lit "'admin : block") [] [lit "$val"; lit "=="] =
  Some (Fatal "invalid string").
Proof.
  refine (proj2 (scanDelim_unterminated QUOTE (or_introl eq_refl))
            (lit "admin : block") [] [lit "$val"; lit "=="] _).
  reflexivity.
Defined.

(** ** Words and white space *)

(** X3: outside a literal, white space only separates: a run of white
    space before a token changes nothing, and a rune that opens a bare word
    is read with the runes after it up to the next white space, or up to the
    end of the input, as one token of the current group. *)
Theorem scanGroups_words :
  (forall ws buf result group,
     Forall (fun c => IsSpace c = true) ws ->
     scanGroups_from (ws ++ buf) result group =
     scanGroups_from buf result group) /\
  (forall r w sp rest result group,
     IsSpace r = false ->
     r <> COLON -> r <> QUOTE -> r <> SLASH ->
     Forall (fun c => IsSpace c = false) w ->
     IsSpace sp = true ->
     scanGroups_from (r :: w ++ sp :: rest) result group =
     scanGroups_from rest result (group ++ [r :: w])) /\
  (forall r w result group,
     IsSpace r = false ->
     r <> COLON -> r <> QUOTE -> r <> SLASH ->
     Forall (fun c => IsSpace c = false) w ->
     scanGroups_from (r :: w) result group =
     Some (Done (result ++ [group ++ [r :: w]]))).
Proof.
  split; [|split].
  - intros ws buf result group Hws.
    induction Hws as [|c ws Hc Hws IH]; [reflexivity|].
    simpl. rewrite scanGroups_from_space by assumption. exact IH.
  - intros r w sp rest result group Hs Hc Hq Hl Hw Hsp.
    rewrite scanGroups_from_word by assumption.
    rewrite scanWord_word by assumption. reflexivity.
  - intros r w result group Hs Hc Hq Hl Hw.
    rewrite scanGroups_from_word by assumption.
    rewrite scanWord_end by assumption. cbn [fst snd].
    apply scanGroups_from_nil_snoc.
Qed.

Lemma scanGroups_words_witness :
  scanGroups_from (lit "$key   ==") [] [] =
  scanGroups_from (lit "  ==") [] [lit "$key"].
Proof.
  refine (proj1 (proj2 scanGroups_words) DOLLAR (lit "key") 32 (lit "  ==")
            [] [] _ _ _ _ _ _); try reflexivity; try discriminate.
  repeat constructor.
Defined.

(** ** Errors of the condition parser *)

Lemma parseGroup_token_error (curr : Stmt) (token : gostring) :
  snd (parseGroup_token curr token) = token_error token.
Proof.
  unfold parseGroup_token, token_error.
  destruct (HasPrefix1 token QUOTE); [reflexivity|].
  destruct (HasPrefix1 token SLASH); [reflexivity|].
  destruct (HasPrefix1 token DOLLAR).
  - destruct (parseVar token); reflexivity.
  - destruct (parseOp token); reflexivity.
Qed.

Lemma parseVar_error (val : gostring) :
  snd (parseVar val) = None <->
  In val [lit "$ctx"; lit "$key"; lit "$val"; lit "$depth"].
Proof.
  unfold parseVar.
  repeat match goal with
  | |- context [eqs val ?l] =>
      let E := fresh "E" in
      destruct (eqs val l) eqn:E;
      [apply eqs_eq in E; subst val; simpl; split; auto; tauto|]
  end.
  simpl. split; [discriminate|].
  intros Hin.
  repeat (destruct Hin as [Hin|Hin];
          [subst val; rewrite eqs_refl in *; discriminate|]).
  contradiction.
Qed.

Lemma parseOp_error (val : gostring) :
  snd (parseOp val) = None <->
  In val [lit "block"; lit "pass"; lit "=="; lit "!="].
Proof.
  unfold parseOp.
  repeat match goal with
  | |- context [eqs val ?l] =>
      let E := fresh "E" in
      destruct (eqs val l) eqn:E;
      [apply eqs_eq in E; subst val; simpl; split; auto; tauto|]
  end.
  simpl. split; [discriminate|].
  intros Hin.
  repeat (destruct Hin as [Hin|Hin];
          [subst val; rewrite eqs_refl in *; discriminate|]).
  contradiction.
Qed.

Lemma parseGroup_loop_error (tokens : list gostring) :
  forall result curr,
    snd (parseGroup_loop tokens result curr) = first_error token_error tokens /\
    (snd (parseGroup_loop tokens result curr) <> None ->
     fst (parseGroup_loop tokens result curr) = []).
Proof.
  induction tokens as [|token tokens IH]; intros result curr.
  - simpl. split; [reflexivity | intros Hn; contradiction].
  - rewrite parseGroup_loop_cons. cbn [first_error].
    rewrite <- (parseGroup_token_error curr token).
    destruct (parseGroup_token curr token) as [curr' [err|]]; cbn [snd fst].
    + split; [reflexivity | reflexivity].
    + destruct (parseGroup_complete curr'); apply IH.
Qed.

(** X4: [parseGroup] accepts a group exactly when each of its tokens opens
    with a quote or a slash or is one of the four field names or one of the
    four operator words.  Otherwise it returns no statement and the error of
    the first other token: unknown variable if the token opens with a dollar,
    unknown operator if not, each naming the token. *)
Theorem parseGroup_errors :
  (forall tokens,
     snd (parseGroup tokens) = first_error token_error tokens /\
     (snd (parseGroup tokens) <> None -> fst (parseGroup tokens) = [])) /\
  (forall token,
     token_error token = None <->
     HasPrefix1 token QUOTE = true \/ HasPrefix1 token SLASH = true \/
     In token [lit "$ctx"; lit "$key"; lit "$val"; lit "$depth";
               lit "block"; lit "pass"; lit "=="; lit "!="]) /\
  (forall token err,
     token_error token = Some err ->
     (HasPrefix1 token DOLLAR = true /\ err = UnknownVariable token) \/
     (HasPrefix1 token DOLLAR = false /\ err = UnknownOperator token)).
Proof.
  split; [|split].
  - intros tokens. apply parseGroup_loop_error.
  - intros token. unfold token_error.
    destruct (HasPrefix1 token QUOTE) eqn:Eq; [tauto|].
    destruct (HasPrefix1 token SLASH) eqn:El; [tauto|].
    destruct (HasPrefix1 token DOLLAR) eqn:Ed.
    + rewrite parseVar_error. simpl. split; [tauto|].
      intros [H|[H|H]]; try discriminate.
      repeat (destruct H as [H|H];
              [try (left; exact H); try (right; left; exact H);
               try (right; right; left; exact H);
               try (right; right; right; left; exact H);
               try (subst token; discriminate)|]).
      contradiction.
    + rewrite parseOp_error. simpl. split; [tauto|].
      intros [H|[H|H]]; try discriminate.
      repeat (destruct H as [H|H];
              [try (left; exact H); try (right; left; exact H);
               try (right; right; left; exact H);
               try (right; right; right; left; exact H);
               try (subst token; discriminate)|]).
      contradiction.
  - intros token err. unfold token_error.
    destruct (HasPrefix1 token QUOTE); [discriminate|].
    destruct (HasPrefix1 token SLASH); [discriminate|].
    destruct (HasPrefix1 token DOLLAR).
    + unfold parseVar.
      repeat (destruct (eqs token _); [discriminate|]).
      simpl. intros [= <-]. left; auto.
    + unfold parseOp.
      repeat (destruct (eqs token _); [discriminate|]).
      simpl. intros [= <-]. right; auto.
Qed.

Lemma parseGroup_errors_witness :
  fst (parseGroup [lit "$key"; lit "=="; lit "'id'"; lit "$role"]) = [].
Proof.
  refine (proj2 (proj1 parseGroup_errors
                   [lit "$key"; lit "=="; lit "'id'"; lit "$role"]) _).
  discriminate.
Defined.

(** ** What the model builder builds *)

Lemma parseRule_loop_groups (groups : list (list gostring)) :
  forall result clauses,
    parseRule_loop groups result = (clauses, None) <->
    exists added,
      clauses = result ++ added /\
      Forall2 (fun g c => parseGroup g = (c, None)) groups added.
Proof.
  induction groups as [|g groups IH]; intros result clauses; simpl.
  - split.
    + intros [= <-]. exists []. rewrite app_nil_r. split; constructor.
    + intros (added & -> & Hall). inversion Hall. rewrite app_nil_r.
      reflexivity.
  - destruct (parseGroup g) as [stmt [err|]] eqn:Eg.
    + split; [discriminate|].
      intros (added & _ & Hall). inversion Hall; subst. congruence.
    + rewrite IH. split.
      * intros (added & -> & Hall). exists (stmt :: added).
        rewrite <- app_assoc. split; [reflexivity|].
        constructor; assumption.
      * intros (added & -> & Hall).
        inversion Hall as [|? c ? added' Hc Hall']; subst.
        rewrite Eg in Hc. injection Hc as <-.
        exists added'. rewrite <- app_assoc. split; [reflexivity|assumption].
Qed.

Lemma makeSentinels_rules_spec (vals : list gostring) :
  forall rules out,
    makeSentinels_rules vals rules = Some (Done (out, None)) <->
    exists added,
      out = rules ++ added /\
      Forall2 (fun val rule => parseRule val = Some (Done (rule, None)))
        vals added.
Proof.
  induction vals as [|val vals IH]; intros rules out; simpl.
  - split.
    + intros [= <-]. exists []. rewrite app_nil_r. split; constructor.
    + intros (added & -> & Hall). inversion Hall. rewrite app_nil_r.
      reflexivity.
  - destruct (parseRule val) as [[[rule [err|]]|m]|] eqn:Ev.
    + split; [discriminate|].
      intros (added & _ & Hall). inversion Hall; subst. congruence.
    + rewrite IH. split.
      * intros (added & -> & Hall). exists (rule :: added).
        rewrite <- app_assoc. split; [reflexivity|].
        constructor; [exact Ev | assumption].
      * intros (added & -> & Hall).
        inversion Hall as [|? c ? added' Hc Hall']; subst.
        rewrite Ev in Hc. injection Hc as <-.
        exists added'. rewrite <- app_assoc. split; [reflexivity|assumption].
    + split; [discriminate|].
      intros (added & _ & Hall). inversion Hall; subst. congruence.
    + split; [discriminate|].
      intros (added & _ & Hall). inversion Hall; subst. congruence.
Qed.

Lemma makeSentinels_loop_spec (endpoints : list Endpoint) :
  forall result snts,
    makeSentinels_loop endpoints result = Some (Done (snts, None)) <->
    exists added,
      snts = result ++ added /\ Forall2 compiles endpoints added.
Proof.
  induction endpoints as [|e endpoints IH]; intros result snts; simpl.
  - split.
    + intros [= <-]. exists []. rewrite app_nil_r. split; constructor.
    + intros (added & -> & Hall). inversion Hall. rewrite app_nil_r.
      reflexivity.
  - destruct (makeSentinels_rules (ep_Rules e) [])
      as [[[rules [err|]]|m]|] eqn:Er.
    + split; [discriminate|].
      intros (added & _ & Hall).
      inversion Hall as [|? snt ? ? (_ & _ & Hr) _]; subst.
      assert (Hs : makeSentinels_rules (ep_Rules e) [] =
                   Some (Done (Rules snt, None))).
      { apply makeSentinels_rules_spec. exists (Rules snt). auto. }
      congruence.
    + apply makeSentinels_rules_spec in Er.
      destruct Er as (added0 & Eadd & Hr). simpl in Eadd. subst added0.
      rewrite IH. split.
      * intros (added & -> & Hall).
        eexists (_ :: added). rewrite <- app_assoc.
        split; [reflexivity|].
        constructor; [|assumption]. repeat split; assumption.
      * intros (added & -> & Hall).
        inversion Hall as [|? snt ? added' (Hm & Hp & Hr') Hall']; subst.
        assert (Hs : makeSentinels_rules (ep_Rules e) [] =
                     Some (Done (Rules snt, None))).
        { apply makeSentinels_rules_spec. exists (Rules snt). auto. }
        assert (Hs' : makeSentinels_rules (ep_Rules e) [] =
                      Some (Done (rules, None))).
        { apply makeSentinels_rules_spec. exists rules. auto. }
        rewrite Hs in Hs'. injection Hs' as Hrules.
        exists added'. rewrite <- app_assoc. split; [|assumption].
        do 2 f_equal. destruct snt as [mt pt rl]. simpl in *.
        subst. reflexivity.
    + split; [discriminate|].
      intros (added & _ & Hall).
      inversion Hall as [|? snt ? ? (_ & _ & Hr) _]; subst.
      assert (Hs : makeSentinels_rules (ep_Rules e) [] =
                   Some (Done (Rules snt, None))).
      { apply makeSentinels_rules_spec. exists (Rules snt). auto. }
      congruence.
    + split; [discriminate|].
      intros (added & _ & Hall).
      inversion Hall as [|? snt ? ? (_ & _ & Hr) _]; subst.
      assert (Hs : makeSentinels_rules (ep_Rules e) [] =
                   Some (Done (Rules snt, None))).
      { apply makeSentinels_rules_spec. exists (Rules snt). auto. }
      congruence.
Qed.

Lemma parseRule_groups (rule : gostring) (clauses : list (list Stmt)) :
  parseRule rule = Some (Done (clauses, None)) <->
  exists groups,
    scanGroups rule = Some (Done groups) /\
    Forall2 (fun g c => parseGroup g = (c, None)) groups clauses.
Proof.
  unfold parseRule.
  destruct (scanGroups rule) as [[groups|m]|].
  - split.
    + intros [= Hl]. apply parseRule_loop_groups in Hl.
      destruct Hl as (added & -> & Hall). exists groups. auto.
    + intros (groups' & [= <-] & Hall). do 2 f_equal.
      apply parseRule_loop_groups. exists clauses. auto.
  - split; [discriminate|]. intros (g & Hg & _). discriminate.
  - split; [discriminate|]. intros (g & Hg & _). discriminate.
Qed.

Lemma makeSentinels_Forall2 (endpoints : list Endpoint) (snts : list Sentinel) :
  makeSentinels endpoints = Some (Done (snts, None)) <->
  Forall2 compiles endpoints snts.
Proof.
  unfold makeSentinels. rewrite makeSentinels_loop_spec. split.
  - intros (added & -> & Hall). exact Hall.
  - intros Hall. exists snts. auto.
Qed.

(** X5: [parseRule] returns a rule exactly when the string tokenizes and
    every group parses; the rule then has one clause for each group, in the
    order of the groups, which is what [parseGroup] returns for it. *)
Theorem parseRule_clauses :
  forall rule clauses,
    parseRule rule = Some (Done (clauses, None)) <->
    exists groups,
      scanGroups rule = Some (Done groups) /\
      Forall2 (fun g c => parseGroup g = (c, None)) groups clauses.
Proof. exact parseRule_groups. Qed.

Lemma parseRule_clauses_witness :
  exists groups,
    scanGroups (lit "$key == 'id' : pass") = Some (Done groups) /\
    Forall2 (fun g c => parseGroup g = (c, None)) groups
      [[mkStmt KEY EQ (lit "id") []]; [mkStmt 0 PASS [] []]].
Proof.
  apply (proj1 (parseRule_clauses (lit "$key == 'id' : pass")
                  [[mkStmt KEY EQ (lit "id") []]; [mkStmt 0 PASS [] []]])).
  reflexivity.
Defined.

(** X6: [makeSentinels] returns sentinels exactly when every rule string
    of every endpoint compiles; there is then one sentinel for each endpoint,
    in the order of the endpoints, with the method of the endpoint, the
    segments of its path and one rule for each of its rule strings, in their
    order. *)
Theorem makeSentinels_compiles :
  forall endpoints snts,
    makeSentinels endpoints = Some (Done (snts, None)) <->
    Forall2 compiles endpoints snts.
Proof. exact makeSentinels_Forall2. Qed.

Lemma makeSentinels_compiles_witness :
  Forall2 compiles
    [mkEndpoint (lit "GET") (lit "/a") [lit "pass"];
     mkEndpoint (lit "PUT") (lit "/") []]
    [mkSentinel (lit "GET") [lit "a"] [[[mkStmt 0 PASS [] []]]];
     mkSentinel (lit "PUT") [] []].
Proof.
  apply (proj1 (makeSentinels_compiles
                  [mkEndpoint (lit "GET") (lit "/a") [lit "pass"];
                   mkEndpoint (lit "PUT") (lit "/") []] _)).
  reflexivity.
Defined.

(** ** Statements of compiled rules *)

Lemma parseVar_range (val : gostring) (v : Z) :
  parseVar val = (v, None) -> 1 <= v <= 4.
Proof.
  unfold parseVar.
  repeat (destruct (eqs val _); [intros [= <-]; unfold CTX, KEY, VAL, DEPTH; lia|]).
  discriminate.
Qed.

Lemma parseOp_range (val : gostring) (o : Z) :
  parseOp val = (o, None) -> 1 <= o <= 4.
Proof.
  unfold parseOp.
  repeat (destruct (eqs val _); [intros [= <-]; unfold BLOCK, PASS, EQ, NEQ; lia|]).
  discriminate.
Qed.

Lemma parseGroup_token_codes (curr curr' : Stmt) (token : gostring) :
  stmt_codes curr ->
  parseGroup_token curr token = (curr', None) ->
  stmt_codes curr'.
Proof.
  unfold stmt_codes, parseGroup_token. intros [Hv Ho].
  destruct (HasPrefix1 token QUOTE); [intros [= <-]; simpl; auto|].
  destruct (HasPrefix1 token SLASH); [intros [= <-]; simpl; auto|].
  destruct (HasPrefix1 token DOLLAR).
  - destruct (parseVar token) as [v err] eqn:E. intros [= <- ->]. simpl.
    apply parseVar_range in E. split; lia.
  - destruct (parseOp token) as [o err] eqn:E. intros [= <- ->]. simpl.
    apply parseOp_range in E. split; lia.
Qed.

Lemma complete_compiled_ok (s : Stmt) :
  stmt_codes s -> parseGroup_complete s = true -> compiled_ok s.
Proof.
  intros [Hv Ho] Hc. split; [assumption|]. split; [assumption|].
  apply parseGroup_complete_iff in Hc. unfold BLOCK, PASS in Hc.
  destruct Hc as [(_ & Hop & _)|[Hop|Hop]]; lia.
Qed.

Lemma parseGroup_loop_compiled (tokens : list gostring) :
  forall result curr stmts,
    Forall compiled_ok result ->
    stmt_codes curr ->
    parseGroup_loop tokens result curr = (stmts, None) ->
    Forall compiled_ok stmts.
Proof.
  induction tokens as [|token tokens IH]; intros result curr stmts Hres Hcur.
  - simpl. intros [= <-]. assumption.
  - rewrite parseGroup_loop_cons.
    destruct (parseGroup_token curr token) as [curr' [err|]] eqn:Et;
      [discriminate|].
    pose proof (parseGroup_token_codes _ _ _ Hcur Et) as Hcur'.
    destruct (parseGroup_complete curr') eqn:Ec.
    + apply IH.
      * apply Forall_app. split; [assumption|].
        constructor; [|constructor]. apply complete_compiled_ok; assumption.
      * unfold stmt_codes, Stmt0. simpl. lia.
    + apply IH; assumption.
Qed.

Lemma Forall2_Forall_r {A B : Type} (R : A -> B -> Prop) (P : B -> Prop)
  (xs : list A) (ys : list B) :
  Forall2 R xs ys -> (forall x y, R x y -> P y) -> Forall P ys.
Proof.
  intros Hall HR. induction Hall; constructor; eauto.
Qed.

(** X7: every statement of the rules [makeSentinels] returns is complete
    in the sense of [parseGroup]: it has a field, an operator and a non-empty
    value, or its operator is [block] or [pass]; its field code is 0 (none)
    to 4 and its operator code 1 to 4. *)
Theorem makeSentinels_statements :
  forall endpoints snts,
    makeSentinels endpoints = Some (Done (snts, None)) ->
    Forall (fun snt => Forall (Forall (Forall compiled_ok)) (Rules snt)) snts.
Proof.
  intros endpoints snts Hrun. apply makeSentinels_Forall2 in Hrun.
  apply (Forall2_Forall_r _ _ _ _ Hrun). intros e snt (_ & _ & Hrules).
  apply (Forall2_Forall_r _ _ _ _ Hrules). intros val rule Hrule.
  apply parseRule_groups in Hrule. destruct Hrule as (groups & _ & Hgroups).
  apply (Forall2_Forall_r _ _ _ _ Hgroups). intros g c Hg.
  apply (parseGroup_loop_compiled g [] Stmt0 c); [constructor| |exact Hg].
  unfold stmt_codes, Stmt0. simpl. lia.
Qed.

Lemma makeSentinels_statements_witness :
  Forall (fun snt => Forall (Forall (Forall compiled_ok)) (Rules snt))
    [mkSentinel (lit "GET") [lit "a"]
       [[[mkStmt VAL NEQ [] (lit "/x/")]; [mkStmt 0 BLOCK [] []]]]].
Proof.
  apply (makeSentinels_statements
           [mkEndpoint (lit "GET") (lit "/a") [lit "$val != /x/ : block"]]).
  reflexivity.
Defined.

(** ** The first rule that fails *)

Lemma makeSentinels_rules_app (pre : list gostring) :
  forall rest rules added,
    Forall2 (fun val rule => parseRule val = Some (Done (rule, None)))
      pre added ->
    makeSentinels_rules (pre ++ rest) rules =
    makeSentinels_rules rest (rules ++ added).
Proof.
  induction pre as [|val pre IH]; intros rest rules added Hall;
    inversion Hall as [|? rule ? added' Hv Hall']; subst.
  - rewrite app_nil_r. reflexivity.
  - simpl. rewrite Hv. rewrite (IH rest _ added' Hall'), <- app_assoc.
    reflexivity.
Qed.

Lemma makeSentinels_loop_app (pre : list Endpoint) :
  forall rest result added,
    Forall2 compiles pre added ->
    makeSentinels_loop (pre ++ rest) result =
    makeSentinels_loop rest (result ++ added).
Proof.
  induction pre as [|e pre IH]; intros rest result added Hall;
    inversion Hall as [|? snt ? added' (Hm & Hp & Hr) Hall']; subst.
  - rewrite app_nil_r. reflexivity.
  - simpl.
    assert (Hs : makeSentinels_rules (ep_Rules e) [] =
                 Some (Done (Rules snt, None))).
    { apply makeSentinels_rules_spec. exists (Rules snt). auto. }
    rewrite Hs, (IH rest _ added' Hall'), <- app_assoc.
    destruct snt as [mt pt rl]. simpl in *. subst. reflexivity.
Qed.

(** X8: the first rule string that does not compile decides the run.  When
    the endpoints before it and the rule strings before it in its endpoint
    compile, its error is the error of [makeSentinels], which returns no
    sentinel, and [main] ends with it; when the tokenizer ends the process on
    it, so do [makeSentinels] and [main].  In both cases the disk is as it
    was: the output is not opened. *)
Theorem makeSentinels_first_failure :
  forall pre e post snts_pre rpre val rpost rules_pre,
    Forall2 compiles pre snts_pre ->
    ep_Rules e = rpre ++ val :: rpost ->
    Forall2 (fun v rule => parseRule v = Some (Done (rule, None)))
      rpre rules_pre ->
    (forall x err,
       parseRule val = Some (Done (x, Some err)) ->
       makeSentinels (pre ++ e :: post) = Some (Done ([], Some err)) /\
       (forall i output d,
          readEndpoints i = (pre ++ e :: post, None) ->
          main i output d = Some (d, LogFatal err))) /\
    (forall m,
       parseRule val = Some (Fatal m) ->
       makeSentinels (pre ++ e :: post) = Some (Fatal m) /\
       (forall i output d,
          readEndpoints i = (pre ++ e :: post, None) ->
          main i output d = Some (d, LogFatalln m))).
Proof.
  intros pre e post snts_pre rpre val rpost rules_pre Hpre He Hrpre.
  assert (Hloop : makeSentinels (pre ++ e :: post) =
    match makeSentinels_rules (val :: rpost) ([] ++ rules_pre) with
    | None => None
    | Some (Fatal m) => Some (Fatal m)
    | Some (Done (_, Some err)) => Some (Done ([], Some err))
    | Some (Done (rules, None)) =>
        makeSentinels_loop post
          (([] ++ snts_pre) ++
           [mkSentinel (ep_Method e)
              (makeSentinels_path (Split (ep_Path e) SLASH) []) rules])
    end).
  { unfold makeSentinels.
    rewrite (makeSentinels_loop_app pre (e :: post) [] snts_pre Hpre).
    cbn [makeSentinels_loop]. rewrite He.
    rewrite (makeSentinels_rules_app rpre (val :: rpost) [] rules_pre Hrpre).
    reflexivity. }
  cbn [makeSentinels_rules] in Hloop.
  split.
  - intros x err Hv. rewrite Hv in Hloop. split; [exact Hloop|].
    intros i output d Hread. unfold main. rewrite Hread, Hloop. reflexivity.
  - intros m Hv. rewrite Hv in Hloop. split; [exact Hloop|].
    intros i output d Hread. unfold main. rewrite Hread, Hloop. reflexivity.
Qed.

Lemma makeSentinels_first_failure_witness :
  makeSentinels
    ([mkEndpoint (lit "GET") (lit "/a") [lit "pass"]] ++
     mkEndpoint (lit "PUT") (lit "/b")
       [lit "block"; lit "$role == 'x'"; lit "pass"] :: []) =
  Some (Done ([], Some (UnknownVariable (lit "$role")))).
Proof.
  refine (proj1 (proj1 (makeSentinels_first_failure
            [mkEndpoint (lit "GET") (lit "/a") [lit "pass"]]
            (mkEndpoint (lit "PUT") (lit "/b")
               [lit "block"; lit "$role == 'x'"; lit "pass"])
            []
            [mkSentinel (lit "GET") [lit "a"] [[[mkStmt 0 PASS [] []]]]]
            [lit "block"] (lit "$role == 'x'") [lit "pass"]
            [[[mkStmt 0 BLOCK [] []]]] _ _ _) [] _ _)).
  - repeat constructor.
  - reflexivity.
  - repeat constructor.
  - reflexivity.
Defined.

(** ** Values of literals *)

Lemma TrimRight_snoc (s : gostring) (c : rune) (cut : rune -> bool) :
  cut c = true -> TrimRight (s ++ [c]) cut = TrimRight s cut.
Proof.
  intros Hc. unfold TrimRight. rewrite rev_unit. simpl. rewrite Hc.
  reflexivity.
Qed.

Lemma Trim_wrap (v : gostring) (c : rune) :
  Trim (c :: v ++ [c]) c = Trim v c.
Proof.
  unfold Trim. simpl. rewrite Z.eqb_refl.
  induction v as [|x v IH]; simpl.
  - rewrite Z.eqb_refl. reflexivity.
  - destruct (c =? x) eqn:Ex; [exact IH|].
    apply (TrimRight_snoc (x :: v) c). apply Z.eqb_refl.
Qed.

Lemma Trim_id (v : gostring) (c : rune) :
  HasPrefix1 v c = false ->
  HasPrefix1 (rev v) c = false ->
  Trim v c = v.
Proof.
  intros Hl Hr. unfold Trim, TrimRight.
  assert (Hleft : forall s, HasPrefix1 s c = false -> TrimLeft s (Z.eqb c) = s).
  { intros [|x s]; simpl; [reflexivity|].
    rewrite Z.eqb_sym. intros ->. reflexivity. }
  rewrite (Hleft v Hl), (Hleft (rev v) Hr). apply rev_involutive.
Qed.

Lemma escape_items (delim : rune) (v : gostring) :
  exists items,
    Forall (item_ok delim) items /\
    flat_map item_source items = escape delim v /\
    map item_rune items = v.
Proof.
  induction v as [|c v (items & Hok & Hsrc & Hrune)].
  - exists []. repeat split. constructor.
  - unfold escape. cbn [flat_map]. fold (escape delim v).
    destruct (Z.eqb_spec c BACKSLASH) as [Hb|Hb];
      [|destruct (Z.eqb_spec c delim) as [Hd|Hd]]; cbn [orb].
    + exists (Escaped c :: items). simpl. rewrite Hsrc, Hrune.
      repeat split. constructor; [exact I | assumption].
    + exists (Escaped c :: items). simpl. rewrite Hsrc, Hrune.
      repeat split. constructor; [exact I | assumption].
    + exists (Plain c :: items). simpl. rewrite Hsrc, Hrune.
      repeat split. constructor; [split; assumption | assumption].
Qed.

Lemma scanGroups_from_escaped (delim : rune) (v rest : gostring) result group :
  delim = QUOTE \/ delim = SLASH ->
  scanGroups_from (delim :: escape delim v ++ delim :: rest) result group =
  scanGroups_from rest result (group ++ [delim :: v ++ [delim]]).
Proof.
  intros Hd. destruct (escape_items delim v) as (items & Hok & Hsrc & Hrune).
  rewrite <- Hsrc. rewrite <- Hrune at 1.
  apply scanGroups_from_delim; [assumption|].
  unfold scanDelim. rewrite scanDelim_loop_items; [reflexivity| |assumption].
  destruct Hd as [-> | ->]; discriminate.
Qed.

(** X9: a value written between quotes, with a backslash before each of
    its backslashes and quotes, is scanned as one token, the value between
    two quotes, whatever runes it holds; [parseGroup] takes as the string of
    the statement the value without the quotes it has at its two ends, so the
    value itself when it neither begins nor ends with a quote.  A pattern
    written between slashes in the same way is scanned as the pattern between
    two slashes and kept so, slashes included, as the regex of the
    statement. *)
Theorem literal_values :
  (forall v rest result group,
     scanGroups_from (QUOTE :: escape QUOTE v ++ QUOTE :: rest) result group =
     scanGroups_from rest result (group ++ [QUOTE :: v ++ [QUOTE]])) /\
  (forall v curr,
     parseGroup_token curr (QUOTE :: v ++ [QUOTE]) =
     (mkStmt (Var curr) (Op curr) (Trim v QUOTE) (Regexp curr), None)) /\
  (forall v,
     HasPrefix1 v QUOTE = false ->
     HasPrefix1 (rev v) QUOTE = false ->
     Trim v QUOTE = v) /\
  (forall v rest result group,
     scanGroups_from (SLASH :: escape SLASH v ++ SLASH :: rest) result group =
     scanGroups_from rest result (group ++ [SLASH :: v ++ [SLASH]])) /\
  (forall v curr,
     parseGroup_token curr (SLASH :: v ++ [SLASH]) =
     (mkStmt (Var curr) (Op curr) (Val curr) (SLASH :: v ++ [SLASH]), None)).
Proof.
  split; [|split; [|split; [|split]]].
  - intros. apply scanGroups_from_escaped. left; reflexivity.
  - intros v curr. unfold parseGroup_token.
    change (HasPrefix1 (QUOTE :: v ++ [QUOTE]) QUOTE) with true. cbv iota.
    rewrite Trim_wrap. reflexivity.
  - intros v. apply Trim_id.
  - intros. apply scanGroups_from_escaped. right; reflexivity.
  - intros v curr. reflexivity.
Qed.

Lemma literal_values_witness :
  Trim (lit "it's") QUOTE = lit "it's".
Proof.
  apply (proj1 (proj2 (proj2 literal_values)) (lit "it's")); reflexivity.
Defined.

(** ** Context codes *)

Lemma lookup_In (name : gostring) (table : list (gostring * Z)) (n : Z) :
  Wire.lookup name table = Some n -> In (name, n) table.
Proof.
  induction table as [|[k v] table IH]; simpl; [discriminate|].
  destruct (eqs name k) eqn:E.
  - apply eqs_eq in E. intros [= <-]. left. congruence.
  - intros H. right. apply IH, H.
Qed.

Lemma context_code_inj (a b : gostring) (n : Z) :
  Wire.context_code a = Some n -> Wire.context_code b = Some n -> a = b.
Proof.
  intros Ha Hb. apply lookup_In in Ha, Hb.
  unfold Wire.context_codes in Ha, Hb. simpl in Ha, Hb.
  repeat (destruct Ha as [Ha|Ha]; [injection Ha as <- <-|]);
    try contradiction;
    repeat (destruct Hb as [Hb|Hb];
            [first [injection Hb as <-; reflexivity | discriminate Hb]|]);
    contradiction.
Qed.

Lemma getCtxCode_Some (name : gostring) (n : Z) :
  getCtxCode name = (n, None) <-> Wire.context_code name = Some n.
Proof.
  rewrite getCtxCode_code.
  destruct (Wire.context_code name); split; congruence.
Qed.

Lemma mask_small (names : list gostring) :
  0 <= Wire.mask names < 2 ^ 13 /\ Z.testbit (Wire.mask names) 0 = false.
Proof.
  assert (Hbits : forall i, 13 <= i \/ i = 0 ->
                            Z.testbit (Wire.mask names) i = false).
  { intros i Hi. rewrite mask_testbit by lia.
    apply not_true_is_false. rewrite existsb_exists.
    intros (name & _ & Hc).
    destruct (Wire.context_code name) as [n|] eqn:E; [|discriminate].
    apply context_code_range in E. apply Z.eqb_eq in Hc. lia. }
  pose proof (mask_range names) as [H0 _].
  split; [|apply Hbits; right; reflexivity].
  split; [assumption|].
  destruct (Z.eq_dec (Wire.mask names) 0) as [->|Hne]; [lia|].
  apply Z.log2_lt_pow2; [lia|].
  destruct (Z_lt_le_dec (Z.log2 (Wire.mask names)) 13) as [|Hge];
    [assumption|].
  assert (Hb : Z.testbit (Wire.mask names) (Z.log2 (Wire.mask names)) = true)
    by (apply Z.bit_log2; lia).
  rewrite Hbits in Hb by (left; lia). discriminate.
Qed.

(** X10: no two context names have the same code, and the codes are 1 to
    12.  So the 8 bytes written for a [$ctx] value are a number below 2^13
    whose bit 0 is clear and whose other bits are the codes of the names
    listed, and two values of known names are written alike only if they
    list the same names. *)
Theorem context_masks :
  (forall a b n,
     getCtxCode a = (n, None) -> getCtxCode b = (n, None) -> a = b) /\
  (forall name n, getCtxCode name = (n, None) -> 1 <= n <= 12) /\
  (forall val r,
     writeCtx_loop (Split val BAR) 0 = (r, None) ->
     0 <= r < 2 ^ 13 /\ Z.testbit r 0 = false /\
     forall i,
       0 <= i ->
       (Z.testbit r i = true <->
        exists name, In name (ctx_names val) /\ getCtxCode name = (i, None))) /\
  (forall val1 val2 r,
     writeCtx_loop (Split val1 BAR) 0 = (r, None) ->
     writeCtx_loop (Split val2 BAR) 0 = (r, None) ->
     forall name, In name (ctx_names val1) <-> In name (ctx_names val2)).
Proof.
  assert (Hloop : forall val r,
            writeCtx_loop (Split val BAR) 0 = (r, None) ->
            r = Wire.mask (ctx_names val) /\
            Forall (fun name => Wire.context_code name <> None)
              (ctx_names val)).
  { intros val r Hr.
    assert (Hn : snd (writeCtx_loop (Split val BAR) 0) = None)
      by (rewrite Hr; reflexivity).
    rewrite (writeCtx_loop_ok _ Hn) in Hr. injection Hr as <-.
    split; [reflexivity|].
    destruct (known_or_unknown (Split val BAR)) as [Hk|Hu].
    - unfold ctx_names. rewrite Forall_map. exact Hk.
    - destruct (writeCtx_loop_unknown _ 0 Hu) as (name & _ & _ & Hs).
      congruence. }
  assert (Hbits : forall names i,
            0 <= i ->
            (Z.testbit (Wire.mask names) i = true <->
             exists name, In name names /\ getCtxCode name = (i, None))).
  { intros names i Hi. rewrite mask_testbit by assumption.
    rewrite existsb_exists. split; intros (name & Hin & Hc); exists name;
      (split; [assumption|]).
    - apply getCtxCode_Some.
      destruct (Wire.context_code name) as [n|]; [|discriminate].
      apply Z.eqb_eq in Hc. subst; reflexivity.
    - apply getCtxCode_Some in Hc. rewrite Hc. apply Z.eqb_refl. }
  split; [|split; [|split]].
  - intros a b n Ha Hb. apply getCtxCode_Some in Ha, Hb.
    exact (context_code_inj a b n Ha Hb).
  - intros name n Hn. apply getCtxCode_Some in Hn.
    exact (context_code_range name n Hn).
  - intros val r Hr. destruct (Hloop val r Hr) as [-> _].
    destruct (mask_small (ctx_names val)) as [Hrange Hbit0].
    split; [assumption|]. split; [assumption|]. apply Hbits.
  - intros val1 val2 r H1 H2.
    destruct (Hloop val1 r H1) as [E1 K1].
    destruct (Hloop val2 r H2) as [E2 K2].
    assert (Hsub : forall na nb,
              Wire.mask na = Wire.mask nb ->
              Forall (fun name => Wire.context_code name <> None) na ->
              forall name, In name na -> In name nb).
    { intros na nb Hm Hk name Hin.
      rewrite Forall_forall in Hk. specialize (Hk name Hin).
      destruct (Wire.context_code name) as [n|] eqn:E; [|contradiction].
      pose proof (context_code_range name n E) as Hn.
      assert (Hb : Z.testbit (Wire.mask na) n = true).
      { apply Hbits; [lia|]. exists name. split; [assumption|].
        apply getCtxCode_Some, E. }
      rewrite Hm in Hb. apply Hbits in Hb; [|lia].
      destruct Hb as (name' & Hin' & Hc'). apply getCtxCode_Some in Hc'.
      rewrite (context_code_inj name name' n E Hc'). exact Hin'. }
    intros name. split; apply Hsub; congruence.
Qed.

Lemma context_masks_witness :
  In (lit "path") (ctx_names (lit "json | path|json")) <->
  In (lit "path") (ctx_names (lit "path|json")).
Proof.
  apply (proj2 (proj2 (proj2 context_masks))
           (lit "json | path|json") (lit "path|json") 36); reflexivity.
Defined.

(** ** Values no context list can be *)

Lemma Split_from_last_sep (s : gostring) (sep : rune) :
  forall cur, In [] (Split_from cur (s ++ [sep]) sep).
Proof.
  induction s as [|r s IH]; intros cur; simpl.
  - rewrite Z.eqb_refl. right; left; reflexivity.
  - destruct (r =? sep); [right; apply IH | apply IH].
Qed.

Lemma TrimLeft_spaces (s : gostring) :
  Forall (fun c => IsSpace c = true) s -> TrimLeft s IsSpace = [].
Proof.
  induction 1 as [|c s Hc Hs IH]; simpl; [reflexivity|].
  rewrite Hc. exact IH.
Qed.

Lemma Split_from_no_occurrence (s : gostring) (sep : rune) :
  forall cur, ~ In sep s -> Split_from cur s sep = [cur ++ s].
Proof.
  induction s as [|r s IH]; intros cur Hn; simpl.
  - rewrite app_nil_r. reflexivity.
  - destruct (Z.eqb_spec r sep) as [->|Hne].
    + exfalso. apply Hn. left; reflexivity.
    + rewrite IH, <- app_assoc; [reflexivity|].
      intros Hin. apply Hn. right; assumption.
Qed.

(** X11: an empty name is no context.  A [$ctx] value that is empty (as is
    the value of a statement whose value is a regex), or all white space, or
    that begins or ends with a bar, lists an empty name, and [writeCtx]
    returns for it the unknown-context error and writes nothing. *)
Theorem writeCtx_empty_name :
  unknown_ctx [] /\
  (forall val,
     val = [] \/
     Forall (fun c => IsSpace c = true) val \/
     (exists v, val = BAR :: v) \/
     (exists v, val = v ++ [BAR]) ->
     In [] (ctx_names val)) /\
  (forall (W : Type) (HW : Writer W) (w : W) val,
     In [] (ctx_names val) ->
     exists name,
       unknown_ctx name /\ writeCtx val w = (w, Some (UnknownContext name))).
Proof.
  split; [discriminate|]. split.
  - intros val [->|[Hs|[(v & ->)|(v & ->)]]].
    + left; reflexivity.
    + unfold ctx_names, Split. rewrite Split_from_no_occurrence.
      * simpl. left. unfold TrimSpace. rewrite (TrimLeft_spaces val Hs).
        reflexivity.
      * intros Hin. rewrite Forall_forall in Hs. specialize (Hs _ Hin).
        discriminate.
    + unfold ctx_names, Split. simpl. left; reflexivity.
    + unfold ctx_names, Split. apply in_map_iff. exists []. split;
        [reflexivity | apply Split_from_last_sep].
  - intros W HW w val Hin.
    destruct (unknown_names val) as (name & _ & Hu & Hs).
    + apply Exists_exists. exists []. split; [assumption | discriminate].
    + exists name. split; [assumption|]. unfold writeCtx.
      destruct (writeCtx_loop (Split val BAR) 0) as [r [err|]]; simpl in Hs;
        congruence.
Qed.

Lemma writeCtx_empty_name_witness :
  In [] (ctx_names (lit "json|")).
Proof.
  apply (proj1 (proj2 writeCtx_empty_name) (lit "json|")).
  right; right; right. exists (lit "json"). reflexivity.
Defined.

(** ** When the encoder succeeds *)

Lemma File_Write_error (w w' : File) (bs : list byte) (e : error) :
  Write w bs = (w', Some e) -> e = ENOSPC.
Proof.
  destruct w as [dt [n|]]; unfold Write, File_Writer; simpl.
  - destruct (_ <=? _)%N; intros E; inversion E; reflexivity.
  - discriminate.
Qed.

Lemma writeSentinels_error_kinds (path : gostring) (snts : list Sentinel)
  (d d' : Disk) (e : error) :
  writeSentinels path snts d = (d', Some e) ->
  (e = EACCES /\ refused (d path) = true) \/
  (e = ENOSPC /\ space (d path) <> None) \/
  (exists stmt name,
     ctx_stmt_of snts stmt /\ In name (ctx_names (Val stmt)) /\
     unknown_ctx name /\ e = UnknownContext name).
Proof.
  unfold writeSentinels, OpenFile.
  destruct (refused (d path)); [intros [= _ <-]; left; auto|].
  assert (Hroom : forall bs w1 e1,
            Write (mkFile [] (space (d path))) bs = (w1, Some e1) ->
            e1 = ENOSPC /\ space (d path) <> None).
  { intros bs w1 e1 Hw. split; [exact (File_Write_error _ _ _ _ Hw)|].
    destruct (space (d path)); [discriminate|].
    rewrite File_Write_unlimited in Hw. discriminate. }
  destruct (sentinels_error snts) as [e0|] eqn:Es.
  - rewrite (writeSentinels_file_fails snts e0 _ Es).
    unfold feed, andThen, ret.
    destruct (Write _ _) as [w1 [e1|]] eqn:Ew; intros [= _ <-].
    + right; left. exact (Hroom _ _ _ Ew).
    + right; right. destruct (sentinels_error_Some snts e0 Es)
        as (stmt & name & H1 & H2 & H3 & H4).
      exists stmt, name. auto.
  - rewrite (writeSentinels_file_ok snts Es _ I).
    destruct (Write _ _) as [w1 [e1|]] eqn:Ew; intros [= _ <-].
    right; left. exact (Hroom _ _ _ Ew).
Qed.

(** X12: on a destination that can be opened, on a device without limit,
    [writeSentinels] returns without error exactly when every name listed by
    every [$ctx] statement is a known context; the only error it returns
    there is the unknown context.  In general its errors are the refusal to
    open, the lack of room, and the unknown context of a [$ctx] statement. *)
Theorem writeSentinels_succeeds_iff :
  (forall path snts d,
     refused (d path) = false ->
     space (d path) = None ->
     ((exists d', writeSentinels path snts d = (d', None)) <->
      (forall stmt name,
         ctx_stmt_of snts stmt ->
         In name (ctx_names (Val stmt)) ->
         ~ unknown_ctx name))) /\
  (forall path snts d d' e,
     writeSentinels path snts d = (d', Some e) ->
     (e = EACCES /\ refused (d path) = true) \/
     (e = ENOSPC /\ space (d path) <> None) \/
     (exists stmt name,
        ctx_stmt_of snts stmt /\ In name (ctx_names (Val stmt)) /\
        unknown_ctx name /\ e = UnknownContext name)).
Proof.
  split; [|exact writeSentinels_error_kinds].
  intros path snts d Hr Hs. split.
  - intros (d' & Hrun) stmt name Hstmt Hin Hu.
    destruct (writeSentinels_done _ _ _ _ Hrun) as [Hn _].
    exact (sentinels_error_unknown snts stmt name Hstmt Hin Hu Hn).
  - intros Hall.
    destruct (sentinels_error snts) as [e|] eqn:Es.
    + destruct (sentinels_error_Some snts e Es)
        as (stmt & name & H1 & H2 & H3 & _).
      exfalso. exact (Hall stmt name H1 H2 H3).
    + destruct (writeSentinels_runs path snts d Hr) as (d' & Hrun & _);
        [rewrite Hs; exact I | exact Es | exists d'; exact Hrun].
Qed.

Lemma writeSentinels_succeeds_iff_witness :
  exists d',
    writeSentinels (lit "out")
      [mkSentinel (lit "GET") []
         [[[mkStmt CTX EQ (lit "json|jwt") []]; [mkStmt 0 PASS [] []]]]]
      (fun _ => mkSlot false None None) = (d', None).
Proof.
  refine (proj2 (proj1 writeSentinels_succeeds_iff (lit "out")
            [mkSentinel (lit "GET") []
               [[[mkStmt CTX EQ (lit "json|jwt") []]; [mkStmt 0 PASS [] []]]]]
            (fun _ => mkSlot false None None) eq_refl eq_refl) _).
  intros stmt name (snt & rule & clause & Hs & Hr & Hc & Hst & Hv) Hin Hu.
  simpl in Hs. destruct Hs as [<-|[]]. simpl in Hr. destruct Hr as [<-|[]].
  simpl in Hc. destruct Hc as [<-|[<-|[]]]; simpl in Hst;
    destruct Hst as [<-|[]]; try discriminate Hv.
  simpl in Hin. destruct Hin as [<-|[<-|[]]]; apply Hu; reflexivity.
Defined.

(** ** Paths *)

Lemma Split_from_app_sep (p rest : gostring) (sep : rune) :
  forall cur,
    ~ In sep p ->
    Split_from cur (p ++ sep :: rest) sep =
    (cur ++ p) :: Split_from [] rest sep.
Proof.
  induction p as [|r p IH]; intros cur Hn; simpl.
  - rewrite Z.eqb_refl, app_nil_r. reflexivity.
  - destruct (Z.eqb_spec r sep) as [->|Hne].
    + exfalso. apply Hn. left; reflexivity.
    + rewrite IH, <- app_assoc; [reflexivity|].
      intros Hin. apply Hn. right; assumption.
Qed.

Lemma Split_Join_pieces (pieces : list gostring) (sep : rune) :
  pieces <> [] ->
  Forall (fun p => ~ In sep p) pieces ->
  Split (Join pieces sep) sep = pieces.
Proof.
  intros Hne Hall. unfold Split.
  induction Hall as [|p pieces Hp Hall IH]; [contradiction|].
  destruct pieces as [|q pieces].
  - simpl. rewrite Split_from_no_occurrence by assumption. reflexivity.
  - change (Join (p :: q :: pieces) sep)
      with (p ++ sep :: Join (q :: pieces) sep).
    rewrite Split_from_app_sep by assumption.
    rewrite IH by discriminate. reflexivity.
Qed.

Lemma filter_nonempty_id (segs : list gostring) :
  Forall (fun seg => seg <> []) segs ->
  filter (fun val => negb (eqs val [])) segs = segs.
Proof.
  induction 1 as [|seg segs Hs Hall IH]; simpl; [reflexivity|].
  destruct seg; [contradiction|]. simpl. rewrite IH. reflexivity.
Qed.

Lemma path_of_segments (segs : list gostring) :
  Forall (fun seg => seg <> [] /\ ~ In SLASH seg) segs ->
  makeSentinels_path (Split (SLASH :: Join segs SLASH) SLASH) [] = segs.
Proof.
  intros Hall. rewrite makeSentinels_path_filter. simpl app.
  assert (Hne : Forall (fun seg => seg <> []) segs)
    by (revert Hall; apply Forall_impl; tauto).
  assert (Hns : Forall (fun seg => ~ In SLASH seg) segs)
    by (revert Hall; apply Forall_impl; tauto).
  destruct segs as [|seg segs]; [reflexivity|].
  unfold Split. cbn [Split_from]. change (SLASH =? SLASH) with true.
  cbv iota. fold (Split (Join (seg :: segs) SLASH) SLASH).
  rewrite Split_Join_pieces by (discriminate || assumption).
  exact (filter_nonempty_id (seg :: segs) Hne).
Qed.

(** X14: segments that are not empty and hold no slash, joined by slashes
    after a leading slash, are the segments [makeSentinels] cuts that path
    into; so cutting a path, joining its segments and cutting again gives the
    same segments. *)
Theorem path_segments_roundtrip :
  (forall segs,
     Forall (fun seg => seg <> [] /\ ~ In SLASH seg) segs ->
     makeSentinels_path (Split (SLASH :: Join segs SLASH) SLASH) [] = segs) /\
  (forall path,
     makeSentinels_path
       (Split (SLASH :: Join (makeSentinels_path (Split path SLASH) []) SLASH)
          SLASH) [] =
     makeSentinels_path (Split path SLASH) []).
Proof.
  split; [exact path_of_segments|].
  intros path. apply path_of_segments.
  rewrite makeSentinels_path_filter. simpl app.
  apply Forall_forall. intros seg Hin. apply filter_In in Hin.
  destruct Hin as [Hin Hne]. split.
  - intros ->. discriminate.
  - pose proof (Split_no_sep path SLASH) as Hs.
    rewrite Forall_forall in Hs. apply Hs, Hin.
Qed.

Lemma path_segments_roundtrip_witness :
  makeSentinels_path (Split (SLASH :: Join [lit "api"; lit "*"] SLASH) SLASH)
    [] = [lit "api"; lit "*"].
Proof.
  apply (proj1 path_segments_roundtrip [lit "api"; lit "*"]).
  repeat constructor; try discriminate;
    simpl; unfold SLASH; intuition discriminate.
Defined.

(** ** The order of the tokens of a condition *)

Lemma parseGroup_token_field (f : gostring) (fc : Z) (curr : Stmt) :
  In (f, fc) [(lit "$ctx", CTX); (lit "$key", KEY); (lit "$val", VAL);
              (lit "$depth", DEPTH)] ->
  parseGroup_token curr f =
  (mkStmt fc (Op curr) (Val curr) (Regexp curr), None).
Proof.
  simpl. intros [H|[H|[H|[H|[]]]]]; injection H as <- <-; reflexivity.
Qed.

Lemma parseGroup_token_op (o : gostring) (oc : Z) (curr : Stmt) :
  In (o, oc) [(lit "==", EQ); (lit "!=", NEQ)] ->
  parseGroup_token curr o =
  (mkStmt (Var curr) oc (Val curr) (Regexp curr), None).
Proof.
  simpl. intros [H|[H|[]]]; injection H as <- <-; reflexivity.
Qed.

Lemma parseGroup_token_value (v : gostring) (curr : Stmt) :
  HasPrefix1 v QUOTE = true ->
  parseGroup_token curr v =
  (mkStmt (Var curr) (Op curr) (Trim v QUOTE) (Regexp curr), None).
Proof. intros Hv. unfold parseGroup_token. rewrite Hv. reflexivity. Qed.

(** Settles whether the statement the goal tests is complete. *)
Ltac decide_complete :=
  match goal with
  | |- context [parseGroup_complete ?s] =>
      first
        [ replace (parseGroup_complete s) with true
            by (symmetry; apply parseGroup_complete_iff; simpl; left;
                repeat split;
                first [assumption | left; assumption | discriminate])
        | replace (parseGroup_complete s) with false
            by (symmetry; apply not_true_is_false;
                rewrite parseGroup_complete_iff; simpl;
                unfold BLOCK, PASS; intuition (subst; congruence)) ]
  end.

(** X15: the field, the operator [==] or [!=] and the quoted value of a
    condition may come in any order: from an empty statement under
    construction, the three tokens in each of their six orders complete the
    same statement, provided the value is not empty once its quotes are
    taken off. *)
Theorem parseGroup_any_order :
  forall f o v fc oc rest result,
    In (f, fc) [(lit "$ctx", CTX); (lit "$key", KEY); (lit "$val", VAL);
                (lit "$depth", DEPTH)] ->
    In (o, oc) [(lit "==", EQ); (lit "!=", NEQ)] ->
    HasPrefix1 v QUOTE = true ->
    Trim v QUOTE <> [] ->
    parseGroup_loop (f :: o :: v :: rest) result Stmt0 =
      parseGroup_loop rest (result ++ [mkStmt fc oc (Trim v QUOTE) []]) Stmt0 /\
    parseGroup_loop (f :: v :: o :: rest) result Stmt0 =
      parseGroup_loop rest (result ++ [mkStmt fc oc (Trim v QUOTE) []]) Stmt0 /\
    parseGroup_loop (o :: f :: v :: rest) result Stmt0 =
      parseGroup_loop rest (result ++ [mkStmt fc oc (Trim v QUOTE) []]) Stmt0 /\
    parseGroup_loop (o :: v :: f :: rest) result Stmt0 =
      parseGroup_loop rest (result ++ [mkStmt fc oc (Trim v QUOTE) []]) Stmt0 /\
    parseGroup_loop (v :: f :: o :: rest) result Stmt0 =
      parseGroup_loop rest (result ++ [mkStmt fc oc (Trim v QUOTE) []]) Stmt0 /\
    parseGroup_loop (v :: o :: f :: rest) result Stmt0 =
      parseGroup_loop rest (result ++ [mkStmt fc oc (Trim v QUOTE) []]) Stmt0.
Proof.
  intros f o v fc oc rest result Hf Ho Hv Ht.
  assert (Hfc : fc <> 0).
  { simpl in Hf. destruct Hf as [H|[H|[H|[H|[]]]]];
      injection H as _ <-; discriminate. }
  assert (Hoc : oc <> 0 /\ oc <> BLOCK /\ oc <> PASS).
  { simpl in Ho. destruct Ho as [H|[H|[]]];
      injection H as _ <-; repeat split; discriminate. }
  destruct Hoc as (Hoc & Hob & Hop).
  repeat split;
    repeat (rewrite parseGroup_loop_cons;
            first [ rewrite (parseGroup_token_field f fc) by exact Hf
                  | rewrite (parseGroup_token_op o oc) by exact Ho
                  | rewrite (parseGroup_token_value v) by exact Hv ];
            cbn [Var Op Val Regexp Stmt0];
            decide_complete; cbv iota);
    reflexivity.
Qed.

Lemma parseGroup_any_order_witness :
  parseGroup [lit "'admin'"; lit "!="; lit "$val"; lit "block"] =
  parseGroup_loop [lit "block"] [mkStmt VAL NEQ (lit "admin") []] Stmt0.
Proof.
  refine (proj2 (proj2 (proj2 (proj2 (proj2
            (parseGroup_any_order (lit "$val") (lit "!=") (lit "'admin'")
               VAL NEQ [lit "block"] [] _ _ _ _)))))).
  - simpl. auto.
  - simpl. auto.
  - reflexivity.
  - discriminate.
Defined.

(** ** The offset table *)

Lemma wire_sentinel_length (snt : Sentinel) : 6 <= len (Wire.sentinel snt).
Proof.
  unfold Wire.sentinel, Wire.str, Wire.u16, len.
  rewrite !length_app, !le_length. lia.
Qed.

(** X16: [offsetTable] returns either no offset and the error that names
    the first unknown context met, in the order of the statements and, in a
    value, from left to right, or one offset for each sentinel: the first is
    [8 + 8 * n] for [n] sentinels, and the offset of a sentinel is that number
    plus the bytes of the records of the sentinels before it, as a [uint64].
    A record takes 6 bytes at least. *)
Theorem offsetTable_offsets :
  (forall snts offs e,
     offsetTable snts = (offs, Some e) ->
     offs = [] /\
     exists name, e = UnknownContext name /\ first_unknown snts name) /\
  (forall snts name,
     first_unknown snts name ->
     offsetTable snts = ([], Some (UnknownContext name))) /\
  (forall snts offs,
     offsetTable snts = (offs, None) ->
     length offs = length snts /\
     forall i snt,
       nth_error snts i = Some snt ->
       nth_error offs i =
       Some (uint64 (8 + 8 * len snts +
                     len (flat_map record (firstn i snts))))) /\
  (forall snt, sentinel_error snt = None -> 6 <= len (record snt)).
Proof.
  split; [|split; [|split]].
  - intros snts offs e Ho.
    destruct (sentinels_error snts) as [e0|] eqn:Es.
    + rewrite (offsetTable_fails snts e0 Es) in Ho.
      injection Ho as <- <-. split; [reflexivity|].
      apply sentinels_error_first, Es.
    + rewrite (offsetTable_ok snts Es) in Ho. discriminate.
  - intros snts name Hfirst. apply offsetTable_fails.
    apply sentinels_error_first. exists name. auto.
  - intros snts offs Ho.
    destruct (sentinels_error snts) as [e0|] eqn:Es.
    + rewrite (offsetTable_fails snts e0 Es) in Ho. discriminate.
    + rewrite (offsetTable_ok snts Es) in Ho.
      assert (Hoffs : offs =
                map uint64 (Wire.offsets (4 + 2 + 8 * len snts + 2) snts))
        by congruence.
      subst offs. clear Ho.
      split; [rewrite length_map; apply offsets_length|].
      intros i snt Hi.
      rewrite nth_error_map, (offsets_nth snts _ i snt Hi). unfold option_map.
      rewrite (flat_map_record_in snts (firstn i snts) Es).
      * do 2 f_equal. lia.
      * intros x Hx. rewrite <- (firstn_skipn i snts).
        apply in_or_app. left; exact Hx.
  - intros snt Hn. rewrite record_wire by assumption.
    apply wire_sentinel_length.
Qed.

Lemma offsetTable_offsets_witness :
  nth_error
    (fst (offsetTable [mkSentinel (lit "GET") [] []; mkSentinel [] [] []]))
    1 =
  Some (uint64 (8 + 8 * len [mkSentinel (lit "GET") [] []; mkSentinel [] [] []]
                + len (flat_map record
                         (firstn 1 [mkSentinel (lit "GET") [] [];
                                    mkSentinel [] [] []])))).
Proof.
  refine (proj2 (proj1 (proj2 (proj2 offsetTable_offsets))
            [mkSentinel (lit "GET") [] []; mkSentinel [] [] []] _ _)
            1%nat (mkSentinel [] [] []) _); reflexivity.
Defined.
